(** * A shallow embedding of the beep-boop synthesis engine

    Sources: [src/synth.rs], [src/synth/envelope.rs],
    [src/synth/oscillator.rs], [src/synth/waves.rs].

    Modelling conventions:
    - an [f32] value is modelled as a real number; IEEE rounding, NaN and
      the infinities are not modelled;
    - [Instant] is a time stamp in whole milliseconds, and every operation
      that reads the clock ([Instant::now], [elapsed]) takes the current
      time [now] as an explicit argument;
    - [rand::random::<f32>()] reads the next value of an explicit stream of
      draws in [0, 1) ([Rng]), threaded through the calls that consume it;
    - a Rust panic ([unwrap] on [None], an index out of range) is [None] of
      an [option] result. *)

From Stdlib Require Import String.
From Stdlib Require Import Reals Psatz List Lia Arith ZArith.
Import ListNotations.

Open Scope bool_scope.
Open Scope R_scope.

(** ** Time, keys and randomness *)

Definition Instant := nat.

(** [druid::Code]: only its equality is used by the engine. *)
Definition KeyCode := nat.

(** [Instant::elapsed] at time [now], in whole milliseconds
    ([as_millis]); it saturates at zero. *)
Definition elapsed_millis (t now : Instant) : R := INR (now - t).

(** A stream of draws of [rand::random::<f32>()]. *)
Definition Rng := nat -> R.

Definition random (g : Rng) : R * Rng := (g 0%nat, fun n => g (S n)).

Definition Rmin_f32 (x y : R) : R := if Rle_dec x y then x else y.
Definition Rmax_f32 (x y : R) : R := if Rle_dec x y then y else x.

(** ** [waves.rs] *)

Module Waves.

Inductive WaveForm := Sine | Square | Pulse25 | Saw | Triangle.

Definition TWO_PI : R := PI * 2.

(** The [period] field of each [Wave] implementation. *)
Definition period (w : WaveForm) : R :=
  match w with
  | Sine => TWO_PI
  | Square => TWO_PI
  | Saw => 2
  | Pulse25 => 2
  | Triangle => 4
  end.

(** [Square::half_period], [Saw::half_period], [Pulse25::upper_part],
    [Triangle::amplitide] and [Triangle::half_amplitude]. *)
Definition square_half_period : R := PI.
Definition saw_half_period : R := 1.
Definition pulse_upper_part : R := 2 * 0.25.
Definition triangle_amplitide : R := 2.
Definition triangle_half_amplitude : R := 1.

Definition wave_func (w : WaveForm) (phase : R) : R :=
  match w with
  | Sine => sin phase
  | Square => if Rle_dec phase square_half_period then 0.7 else -0.7
  | Saw => phase
  | Pulse25 => if Rle_dec phase pulse_upper_part then 0.7 else -0.7
  | Triangle => - Rabs (phase - triangle_amplitide) + triangle_half_amplitude
  end.

Definition next_phase (w : WaveForm) (phase incr : R) : R :=
  let phase := phase + incr * period w in
  match w with
  | Saw => if Rle_dec saw_half_period phase then phase - period w else phase
  | _ => if Rle_dec (period w) phase then phase - period w else phase
  end.

End Waves.

(** ** [synth.rs]: notes *)

Record Released := mkReleased { rel_time : Instant; rel_value : R }.

Record Note := mkNote {
  frequency : R;
  triggered_by : KeyCode;
  triggered_time : Instant;
  released : option Released
}.

(** [Note::new] at time [now]. *)
Definition Note_new (freq : R) (key : KeyCode) (now : Instant) : Note :=
  mkNote freq key now None.

(** [impl PartialEq for Note]: frequency and key only. *)
Definition note_eqb (a b : Note) : bool :=
  (if Req_EM_T (frequency a) (frequency b) then true else false)
  && Nat.eqb (triggered_by a) (triggered_by b).

Definition is_none {A} (o : option A) : bool :=
  match o with None => true | Some _ => false end.

Definition is_some {A} (o : option A) : bool := negb (is_none o).

(** ** [envelope.rs] *)

Module Envelope.

(** [type Milliseconds = u32]. *)
Definition Milliseconds := nat.

Definition MIN_ATTACK : R := 1.
Definition MIN_DECAY : R := 1.
Definition MIN_RELEASE : R := 1.

Inductive ADSRParam :=
| Attack (val : R)
| Decay (val : R)
| Sustain (val : R)
| Release (val : R).

Record ADSR := mkADSR {
  sample_rate : R;
  attack : R;
  decay : R;
  sustain : R;
  release : R;
  attack_incr : R;
  decay_decr : R;
  release_decr : R;
  release_samples : R
}.

Definition new (sample_rate : R) (attack decay : Milliseconds) (sustain : R)
    (release : Milliseconds) : ADSR :=
  let attack := Rmax_f32 MIN_ATTACK (INR attack) in
  let decay := Rmax_f32 MIN_DECAY (INR decay) in
  let release := Rmax_f32 MIN_RELEASE (INR release) in
  let attack_incr := 1 / (attack / 1000 * sample_rate) in
  let decay_decr := - ((1 - sustain) / (decay / 1000 * sample_rate)) in
  let release_decr := - (sustain / (release / 1000 * sample_rate)) in
  let release_samples := release / 1000 * sample_rate in
  mkADSR sample_rate attack decay sustain release
         attack_incr decay_decr release_decr release_samples.

Definition set_parameter (e : ADSR) (param : ADSRParam) : ADSR :=
  match param with
  | Attack val =>
      let attack := Rmax_f32 val 1 in
      {| sample_rate := sample_rate e; attack := attack; decay := decay e;
         sustain := sustain e; release := release e;
         attack_incr := 1 / (attack / 1000 * sample_rate e);
         decay_decr := decay_decr e; release_decr := release_decr e;
         release_samples := release_samples e |}
  | Decay val =>
      let decay := Rmax_f32 val 3 in
      {| sample_rate := sample_rate e; attack := attack e; decay := decay;
         sustain := sustain e; release := release e;
         attack_incr := attack_incr e;
         decay_decr := - ((1 - sustain e) / (decay / 1000 * sample_rate e));
         release_decr := release_decr e;
         release_samples := release_samples e |}
  | Sustain val =>
      {| sample_rate := sample_rate e; attack := attack e; decay := decay e;
         sustain := val; release := release e;
         attack_incr := attack_incr e;
         decay_decr := - ((1 - val) / (decay e / 1000 * sample_rate e));
         release_decr := release_decr e;
         release_samples := release_samples e |}
  | Release val =>
      {| sample_rate := sample_rate e; attack := attack e; decay := decay e;
         sustain := sustain e; release := val;
         attack_incr := attack_incr e; decay_decr := decay_decr e;
         release_decr := release_decr e;
         release_samples := val / 1000 * sample_rate e |}
  end.

(** [ADSR::get_volume_incr], the incremental envelope used by
    [Oscillator::get_sample]; [now] is the time of the call. *)
Definition get_volume_incr (e : ADSR) (current : R) (triggered : Instant)
    (released : option Released) (now : Instant) : R :=
  match released with
  | Some r => current - rel_value r / release_samples e
  | None =>
      let alive_for := elapsed_millis triggered now in
      if Rle_dec alive_for (attack e) then current + attack_incr e
      else if Rle_dec alive_for (attack e + decay e) then
        let output := current + decay_decr e in
        if Rlt_dec (sustain e) output then output else sustain e
      else sustain e
  end.


(** Envelopes as the program builds them: by [ADSR::new], then any number
    of [set_parameter] calls (no code writes the derived fields or the
    parameters directly). *)
Inductive reachable : ADSR -> Prop :=
| reachable_new sr a d s r : reachable (new sr a d s r)
| reachable_set e p : reachable e -> reachable (set_parameter e p).

End Envelope.

(** ** [oscillator.rs] *)

Definition Rleb (x y : R) : bool := if Rle_dec x y then true else false.

Module Unison.
Record Unison := mk { freq_mod : R; volume : R }.
End Unison.

Module UnisonVoice.
Record UnisonVoice := mk { phase : R; phase_incr : R; volume : R }.
End UnisonVoice.

Module Voice.
Record Voice := mk { note : Note; volume : R; unisons : list UnisonVoice.UnisonVoice }.
End Voice.

Module Oscillator.

Import Waves.


Inductive PhaseStart := Soft | Hard (period : R) | Random (period : R).

(** [PhaseStart::value]; the random variant draws once. *)
Definition value (ps : PhaseStart) (g : Rng) : R * Rng :=
  match ps with
  | Soft => (0, g)
  | Hard period => (period / 4, g)
  | Random period => let (r, g') := random g in (period * r, g')
  end.

Definition change_period (ps : PhaseStart) (period : R) : PhaseStart :=
  match ps with
  | Soft => Soft
  | Hard _ => Random period
  | Random _ => Random period
  end.

(** [wave] is the boxed [dyn Wave]; it is identified by its kind. *)
Record Oscillator := mkOscillator {
  sample_rate : R;
  wave : WaveForm;
  waveform : WaveForm;
  env_idx : nat;
  volume : R;
  voices : list Voice.Voice;
  panning : R;
  transpose : R;
  tune : R;
  unisons : list Unison.Unison;
  phase_start : PhaseStart
}.

Definition set_voices (o : Oscillator) (vs : list Voice.Voice) : Oscillator :=
  {| sample_rate := sample_rate o; wave := wave o; waveform := waveform o;
     env_idx := env_idx o; volume := volume o; voices := vs;
     panning := panning o; transpose := transpose o; tune := tune o;
     unisons := unisons o; phase_start := phase_start o |}.

Definition new (sample_rate : R) (waveform : WaveForm) (env_idx : nat)
    (volume : R) : Oscillator :=
  let volume := Rmax_f32 (Rmin_f32 volume 1) 0 in
  {| sample_rate := sample_rate; wave := waveform; waveform := waveform;
     env_idx := env_idx; volume := volume; voices := [];
     panning := 0; transpose := 1; tune := 1;
     unisons := [Unison.mk 1 1]; phase_start := Soft |}.

(** The partials after the centered one in [create_voice]: each starts at a
    random phase over the period. *)
Fixpoint random_unisons (period phase_incr : R) (us : list Unison.Unison)
    (g : Rng) : list UnisonVoice.UnisonVoice * Rng :=
  match us with
  | [] => ([], g)
  | uni :: us' =>
      let (r, g1) := random g in
      let (rest, g2) := random_unisons period phase_incr us' g1 in
      (UnisonVoice.mk (period * r) (phase_incr * Unison.freq_mod uni)
                      (Unison.volume uni) :: rest, g2)
  end.

Definition unreleased_match (note : Note) (v : Voice.Voice) : bool :=
  note_eqb (Voice.note v) note && is_none (released (Voice.note v)).

Definition create_voice (o : Oscillator) (note : Note) (g : Rng)
    : Oscillator * Rng :=
  if existsb (unreleased_match note) (voices o) then (o, g)
  else
    let phase_incr := frequency note / sample_rate o * transpose o in
    let period := Waves.period (wave o) in
    let '(central, uni_iter, g1) :=
      if Nat.eqb (length (unisons o) mod 2) 1 then
        match unisons o with
        | central_uni :: rest =>
            let (ph, g1) := value (phase_start o) g in
            ([UnisonVoice.mk ph (phase_incr * Unison.freq_mod central_uni)
                             (Unison.volume central_uni)], rest, g1)
        | [] => ([], [], g)
        end
      else ([], unisons o, g) in
    let (others, g2) := random_unisons period phase_incr uni_iter g1 in
    (set_voices o (voices o ++ [Voice.mk note 0 (central ++ others)]), g2).

Definition release_voice (now : Instant) (v : Voice.Voice) : Voice.Voice :=
  let n := Voice.note v in
  Voice.mk (mkNote (frequency n) (triggered_by n) (triggered_time n)
                   (Some (mkReleased now (Voice.volume v))))
           (Voice.volume v) (Voice.unisons v).

(** [voice_off]: the first unreleased voice triggered by [key]. *)
Fixpoint voice_off_list (key : KeyCode) (now : Instant) (vs : list Voice.Voice)
    : list Voice.Voice :=
  match vs with
  | [] => []
  | v :: vs' =>
      if Nat.eqb (triggered_by (Voice.note v)) key
         && is_none (released (Voice.note v))
      then release_voice now v :: vs'
      else v :: voice_off_list key now vs'
  end.

Definition voice_off (o : Oscillator) (key : KeyCode) (now : Instant)
    : Oscillator :=
  set_voices o (voice_off_list key now (voices o)).

(** The inner loop of [get_sample] over a voice's partials. *)
Fixpoint unisons_step (w : WaveForm) (us : list UnisonVoice.UnisonVoice)
    (voice_sample : R) : list UnisonVoice.UnisonVoice * R :=
  match us with
  | [] => ([], voice_sample)
  | uni :: us' =>
      let voice_sample :=
        voice_sample + wave_func w (UnisonVoice.phase uni) * UnisonVoice.volume uni in
      let uni' := UnisonVoice.mk
                    (next_phase w (UnisonVoice.phase uni) (UnisonVoice.phase_incr uni))
                    (UnisonVoice.phase_incr uni) (UnisonVoice.volume uni) in
      let (rest, s) := unisons_step w us' voice_sample in
      (uni' :: rest, s)
  end.

(** The outer loop of [get_sample] over the voices. *)
Fixpoint voices_step (w : WaveForm) (adsr : Envelope.ADSR) (now : Instant)
    (vs : list Voice.Voice) (sample : R) (muted_voices : bool)
    : list Voice.Voice * R * bool :=
  match vs with
  | [] => ([], sample, muted_voices)
  | v :: vs' =>
      let n := Voice.note v in
      let vol := Envelope.get_volume_incr adsr (Voice.volume v)
                   (triggered_time n) (released n) now in
      let vol := Rmin_f32 vol 1 in
      if Rle_dec vol 0.01 then
        let '(rest, s, m) := voices_step w adsr now vs' sample true in
        (Voice.mk n vol (Voice.unisons v) :: rest, s, m)
      else
        let (us', voice_sample) := unisons_step w (Voice.unisons v) 0 in
        let '(rest, s, m) :=
          voices_step w adsr now vs' (sample + voice_sample * vol) muted_voices in
        (Voice.mk n vol us' :: rest, s, m)
  end.

Definition released_and_muted (v : Voice.Voice) : bool :=
  is_some (released (Voice.note v)) && Rleb (Voice.volume v) 0.01.

Definition get_sample (o : Oscillator) (adsr : Envelope.ADSR) (now : Instant)
    : Oscillator * R :=
  let '(vs, sample, muted_voices) := voices_step (wave o) adsr now (voices o) 0 false in
  let vs := if muted_voices then filter (fun v => negb (released_and_muted v)) vs
            else vs in
  (set_voices o vs, sample * volume o).

Definition has_active_voices (o : Oscillator) : bool :=
  negb (match voices o with [] => true | _ => false end).

Definition set_waveform (o : Oscillator) (w : WaveForm) : Oscillator :=
  {| sample_rate := sample_rate o; wave := w; waveform := w;
     env_idx := env_idx o; volume := volume o; voices := voices o;
     panning := panning o; transpose := transpose o; tune := tune o;
     unisons := unisons o;
     phase_start := change_period (phase_start o) (Waves.period w) |}.


(** [Oscillator::transpose] (the method; [transpose] is also the field). *)
Definition transpose_by (o : Oscillator) (semitones : Z) : Oscillator :=
  let t := Rpower 2 (IZR semitones / 12) in
  let rescale (uv : UnisonVoice.UnisonVoice) :=
    UnisonVoice.mk (UnisonVoice.phase uv)
                   (UnisonVoice.phase_incr uv / transpose o * t)
                   (UnisonVoice.volume uv) in
  let vs := map (fun v => Voice.mk (Voice.note v) (Voice.volume v)
                                   (map rescale (Voice.unisons v))) (voices o) in
  {| sample_rate := sample_rate o; wave := wave o; waveform := waveform o;
     env_idx := env_idx o; volume := volume o; voices := vs;
     panning := panning o; transpose := t; tune := tune o;
     unisons := unisons o; phase_start := phase_start o |}.

(** The partial table built by [set_unison_num] (its first half). *)
Definition unison_table (tune : R) (num : nat) : list Unison.Unison :=
  if Nat.leb num 1 then [Unison.mk tune 1]
  else
    (if Nat.eqb (num mod 2) 1 then [Unison.mk 1 1] else []) ++
    let pairs_num := ((num - num mod 2) / 2)%nat in
    let max_volume := 0.7 in
    let volume_step := max_volume / INR pairs_num in
    flat_map (fun i =>
      let fraction := INR (pairs_num - i) / INR pairs_num in
      let volume := volume_step * INR (pairs_num - i) in
      let freq_mod := Rpower tune fraction in
      [Unison.mk freq_mod volume;
       (* Detune in other direction *)
       Unison.mk (1 / freq_mod) volume]) (seq 0 pairs_num).

(** The re-synchronisation of one voice in [set_unison_num]: partial [i]
    keeps the [i]-th old phase when there is one, else a random phase. *)
Fixpoint resync_unisons (period phase_incr : R) (phases : list R)
    (table : list Unison.Unison) (g : Rng) : list UnisonVoice.UnisonVoice * Rng :=
  match table with
  | [] => ([], g)
  | uni :: table' =>
      let '(ph, g1) := match phases with
                       | p :: _ => (p, g)
                       | [] => let (r, g1) := random g in (period * r, g1)
                       end in
      let (rest, g2) := resync_unisons period phase_incr (tl phases) table' g1 in
      (UnisonVoice.mk ph (phase_incr * Unison.freq_mod uni) (Unison.volume uni)
         :: rest, g2)
  end.

Fixpoint resync_voices (o : Oscillator) (table : list Unison.Unison)
    (vs : list Voice.Voice) (g : Rng) : list Voice.Voice * Rng :=
  match vs with
  | [] => ([], g)
  | v :: vs' =>
      let phase_incr := frequency (Voice.note v) * transpose o / sample_rate o in
      let phases := map UnisonVoice.phase (Voice.unisons v) in
      let (us, g1) := resync_unisons (Waves.period (wave o)) phase_incr phases table g in
      let (rest, g2) := resync_voices o table vs' g1 in
      (Voice.mk (Voice.note v) (Voice.volume v) us :: rest, g2)
  end.

Definition set_unison_num (o : Oscillator) (num : nat) (g : Rng)
    : Oscillator * Rng :=
  let table := unison_table (tune o) num in
  let (vs, g') := resync_voices o table (voices o) g in
  ({| sample_rate := sample_rate o; wave := wave o; waveform := waveform o;
      env_idx := env_idx o; volume := volume o; voices := vs;
      panning := panning o; transpose := transpose o; tune := tune o;
      unisons := table; phase_start := phase_start o |}, g').

(** [Oscillator::tune] (the method; [tune] is also the field), followed by
    [update_unison]. *)
Definition tune_by (o : Oscillator) (cents : Z) (g : Rng) : Oscillator * Rng :=
  let o' := {| sample_rate := sample_rate o; wave := wave o;
               waveform := waveform o; env_idx := env_idx o;
               volume := volume o; voices := voices o; panning := panning o;
               transpose := transpose o;
               tune := Rpower 2 (IZR cents / (12 * 100));
               unisons := unisons o; phase_start := phase_start o |} in
  set_unison_num o' (length (unisons o')) g.

(** The public fields written by [Synth::set_osc_volume] and
    [Synth::set_env]. *)
Definition set_volume_field (o : Oscillator) (v : R) : Oscillator :=
  {| sample_rate := sample_rate o; wave := wave o; waveform := waveform o;
     env_idx := env_idx o; volume := v; voices := voices o;
     panning := panning o; transpose := transpose o; tune := tune o;
     unisons := unisons o; phase_start := phase_start o |}.

Definition set_env_idx_field (o : Oscillator) (i : nat) : Oscillator :=
  {| sample_rate := sample_rate o; wave := wave o; waveform := waveform o;
     env_idx := i; volume := volume o; voices := voices o;
     panning := panning o; transpose := transpose o; tune := tune o;
     unisons := unisons o; phase_start := phase_start o |}.

End Oscillator.

(** ** [synth.rs]: the synth *)

Module Synth.

(** The [SampleFormat] instances: [u8], [i8], [i16], [i32], [f32]. *)
Inductive SampleType := U8 | I8 | I16 | I32 | F32.

(** [f32::MAX]. *)
Definition f32_max : R := (2 - / 2 ^ 23) * 2 ^ 127.

(** [SampleType::max_value().as_()]. *)
Definition max_value (t : SampleType) : R :=
  match t with
  | U8 => 255
  | I8 => 127
  | I16 => 32767
  | I32 => 2147483647
  | F32 => f32_max
  end.

(** The integer bounds of the integer sample types. *)
Definition int_bounds (t : SampleType) : option (Z * Z) :=
  match t with
  | U8 => Some (0%Z, 255%Z)
  | I8 => Some ((-128)%Z, 127%Z)
  | I16 => Some ((-32768)%Z, 32767%Z)
  | I32 => Some ((-2147483648)%Z, 2147483647%Z)
  | F32 => None
  end.

Inductive Sample := SInt (z : Z) | SFloat (x : R).

(** Truncation toward zero ([as] from [f32] to an integer). *)
Definition trunc (x : R) : Z :=
  if Rle_dec 0 x then Int_part x else (- Int_part (- x))%Z.

(** [num_traits::FromPrimitive::from_f32]: to an integer type it is the
    truncation when the value lies in the open interval (MIN-1, MAX+1),
    and [None] otherwise; to [f32] it is the value itself. *)
Definition from_f32 (t : SampleType) (x : R) : option Sample :=
  match int_bounds t with
  | None => Some (SFloat x)
  | Some (lo, hi) =>
      if Rlt_dec (IZR lo - 1) x then
        if Rlt_dec x (IZR hi + 1) then Some (SInt (trunc x)) else None
      else None
  end.

(** [_sample_type] is the type parameter [SampleType] of [Synth]. *)
Record Synth := mkSynth {
  sample_rate : R;
  volume : R;
  oscillators : list Oscillator.Oscillator;
  envelopes : list Envelope.ADSR;
  sample_type : SampleType
}.

Definition new (t : SampleType) (sample_rate : R) : Synth :=
  {| sample_rate := sample_rate; volume := 1024; oscillators := [];
     envelopes := []; sample_type := t |}.

Definition set_oscillators (s : Synth) (os : list Oscillator.Oscillator) : Synth :=
  {| sample_rate := sample_rate s; volume := volume s; oscillators := os;
     envelopes := envelopes s; sample_type := sample_type s |}.

Definition set_envelopes (s : Synth) (es : list Envelope.ADSR) : Synth :=
  {| sample_rate := sample_rate s; volume := volume s;
     oscillators := oscillators s; envelopes := es;
     sample_type := sample_type s |}.

Definition add_osc (s : Synth) (osc : Oscillator.Oscillator) : Synth :=
  set_oscillators s (oscillators s ++ [osc]).

Definition add_env (s : Synth) (env : Envelope.ADSR) : Synth :=
  set_envelopes s (envelopes s ++ [env]).

(** [type dB = i32]. *)
Definition dB := Z.

Inductive BaseError := SynthError (msg : string).

Inductive Result (A : Type) := Ok (a : A) | Err (e : BaseError).
Arguments Ok {A} a.
Arguments Err {A} e.

(** [set_volume] takes [&mut self]: it returns the state after the call
    together with the [Result]. *)
Definition set_volume (s : Synth) (v : dB) : Synth * Result unit :=
  if (Z.gtb v 0 || Z.ltb v (-96))%bool then (s, Err (SynthError "[-96, 0] dB is the range for volume"%string))
  else
    ({| sample_rate := sample_rate s;
        volume := max_value (sample_type s) * Rpower 10 (IZR v / 20);
        oscillators := oscillators s; envelopes := envelopes s;
        sample_type := sample_type s |}, Ok tt).

Definition set_unisons (s : Synth) (osc_idx num : nat) (g : Rng)
    : option (Synth * Rng) :=
  match nth_error (oscillators s) osc_idx with
  | None => None
  | Some o =>
      let (o', g') := Oscillator.set_unison_num o num g in
      Some (set_oscillators s (firstn osc_idx (oscillators s) ++ o'
                               :: skipn (S osc_idx) (oscillators s)), g')
  end.

Fixpoint create_voices (os : list Oscillator.Oscillator) (note : Note) (g : Rng)
    : list Oscillator.Oscillator * Rng :=
  match os with
  | [] => ([], g)
  | o :: os' =>
      let (o1, g1) := Oscillator.create_voice o note g in
      let (rest, g2) := create_voices os' note g1 in
      (o1 :: rest, g2)
  end.

(** [note_on]: one [Note::new] at time [now], broadcast to every
    oscillator. *)
Definition note_on (s : Synth) (freq : R) (key : KeyCode) (now : Instant)
    (g : Rng) : Synth * Rng :=
  let note := Note_new freq key now in
  let (os, g') := create_voices (oscillators s) note g in
  (set_oscillators s os, g').

Definition note_off (s : Synth) (key : KeyCode) (now : Instant) : Synth :=
  set_oscillators s (map (fun o => Oscillator.voice_off o key now) (oscillators s)).

Definition playing (s : Synth) : bool :=
  existsb Oscillator.has_active_voices (oscillators s).

(** The loop of [next]: each oscillator's [get_sample] on
    [self.envelopes[osc.env_idx]] ([None] when the index is out of range,
    which panics). *)
Fixpoint mix (es : list Envelope.ADSR) (os : list Oscillator.Oscillator)
    (now : Instant) (sample : R) : option (list Oscillator.Oscillator * R) :=
  match os with
  | [] => Some ([], sample)
  | o :: os' =>
      match nth_error es (Oscillator.env_idx o) with
      | None => None
      | Some env =>
          let (o', x) := Oscillator.get_sample o env now in
          match mix es os' now (sample + x) with
          | None => None
          | Some (rest, total) => Some (o' :: rest, total)
          end
      end
  end.

(** [Iterator::next]. The Rust function returns
    [Some(SampleType::from_f32(sample * self.volume).unwrap())]; here
    [None] stands for the panic of that [unwrap] (or of the indexing), and
    [Some (s', x)] for the returned sample [x] with the new state [s']. *)
Definition next (s : Synth) (now : Instant) : option (Synth * Sample) :=
  match mix (envelopes s) (oscillators s) now 0 with
  | None => None
  | Some (os, sample) =>
      match from_f32 (sample_type s) (sample * volume s) with
      | None => None
      | Some x => Some (set_oscillators s os, x)
      end
  end.

(** [self.oscillators[osc_idx]] updated in place by [f]; the indexing
    panics ([None]) when [osc_idx] is out of range. *)
Definition update_osc (s : Synth) (osc_idx : nat)
    (f : Oscillator.Oscillator -> Oscillator.Oscillator) : option Synth :=
  match nth_error (oscillators s) osc_idx with
  | None => None
  | Some o =>
      Some (set_oscillators s (firstn osc_idx (oscillators s) ++ f o
                               :: skipn (S osc_idx) (oscillators s)))
  end.

(** [semitones] and [cents] are [i8] in the source. *)
Definition set_transpose (s : Synth) (osc_idx : nat) (semitones : Z) : option Synth :=
  update_osc s osc_idx (fun o => Oscillator.transpose_by o semitones).

Definition set_tune (s : Synth) (osc_idx : nat) (cents : Z) (g : Rng)
    : option (Synth * Rng) :=
  match nth_error (oscillators s) osc_idx with
  | None => None
  | Some o =>
      let (o', g') := Oscillator.tune_by o cents g in
      Some (set_oscillators s (firstn osc_idx (oscillators s) ++ o'
                               :: skipn (S osc_idx) (oscillators s)), g')
  end.

Definition set_osc_volume (s : Synth) (osc_idx : nat) (volume : R) : option Synth :=
  update_osc s osc_idx (fun o => Oscillator.set_volume_field o volume).

Definition set_waveform (s : Synth) (osc_idx : nat) (waveform : Waves.WaveForm)
    : option Synth :=
  update_osc s osc_idx (fun o => Oscillator.set_waveform o waveform).

Definition set_env_parameter (s : Synth) (env_idx : nat) (param : Envelope.ADSRParam)
    : option Synth :=
  match nth_error (envelopes s) env_idx with
  | None => None
  | Some e =>
      Some (set_envelopes s (firstn env_idx (envelopes s)
                             ++ Envelope.set_parameter e param
                             :: skipn (S env_idx) (envelopes s)))
  end.

Definition set_env (s : Synth) (osc_idx env_idx : nat) : option Synth :=
  update_osc s osc_idx (fun o => Oscillator.set_env_idx_field o env_idx).

End Synth.

(** ** [main.rs]: the audio callback *)

Module Main.

Definition CHANNELS_NUM : nat := 2.

Inductive StreamCallbackResult := Continue | Complete.

(** The loop of the callback over [output]: each slot receives the
    current sample, and after every [CHANNELS_NUM] slots the next sample
    is generated with [synth.next().unwrap()] ([None]: the panic).
    [clock k] is the time of the [k]-th call of [next] in the callback;
    the result carries the state, the count of calls and the slots. *)
Fixpoint fill (s : Synth.Synth) (clock : nat -> Instant) (k : nat)
    (sample : Synth.Sample) (written : nat) (n : nat)
    : option (Synth.Synth * nat * list Synth.Sample) :=
  match n with
  | O => Some (s, k, [])
  | S n' =>
      let written := S written in
      if Nat.eqb written CHANNELS_NUM then
        match Synth.next s (clock k) with
        | None => None
        | Some (s', x) =>
            match fill s' clock (S k) x 0 n' with
            | None => None
            | Some (s'', k', out) => Some (s'', k', sample :: out)
            end
        end
      else
        match fill s clock k sample written n' with
        | None => None
        | Some (s'', k', out) => Some (s'', k', sample :: out)
        end
  end.

(** The stream callback of [main] on an output buffer of [len] slots.
    When the synth is not playing, it signals [stream_finished] and
    returns [Complete] without writing the buffer ([None] slots). *)
Definition callback (s : Synth.Synth) (clock : nat -> Instant) (len : nat)
    : option (Synth.Synth * StreamCallbackResult * option (list Synth.Sample)) :=
  if negb (Synth.playing s) then Some (s, Complete, None)
  else
    match Synth.next s (clock 0%nat) with
    | None => None
    | Some (s1, x) =>
        match fill s1 clock 1 x 0 len with
        | None => None
        | Some (s2, _, out) => Some (s2, Continue, Some out)
        end
    end.

End Main.

(** * Properties *)

(** ** Helpers *)

(** Settle every real comparison of the goal by cases. *)
Ltac split_R_decs :=
  repeat match goal with
  | |- context [Rle_dec ?a ?b] => destruct (Rle_dec a b)
  | |- context [Rlt_dec ?a ?b] => destruct (Rlt_dec a b)
  | |- context [Req_EM_T ?a ?b] => destruct (Req_EM_T a b)
  end.

Lemma Rmax_f32_l (x y : R) : y <= x -> Rmax_f32 x y = x.
Proof. unfold Rmax_f32; split_R_decs; lra. Qed.

Lemma Rmax_f32_r (x y : R) : x <= y -> Rmax_f32 x y = y.
Proof. unfold Rmax_f32; split_R_decs; lra. Qed.

Lemma Rmax_f32_ge_l (x y : R) : x <= Rmax_f32 x y.
Proof. unfold Rmax_f32; split_R_decs; lra. Qed.

Lemma Rmax_f32_ge_r (x y : R) : y <= Rmax_f32 x y.
Proof. unfold Rmax_f32; split_R_decs; lra. Qed.

Lemma Rpower_pos (x y : R) : 0 < Rpower x y.
Proof. unfold Rpower; apply exp_pos. Qed.

Lemma Rpower_le_1 (x y : R) : 1 < x -> y <= 0 -> Rpower x y <= 1.
Proof.
  intros Hx Hy. rewrite <- (Rpower_O x) by lra.
  destruct (Rle_lt_or_eq_dec _ _ Hy) as [Hlt | ->].
  - left. now apply Rpower_lt.
  - right. reflexivity.
Qed.

Lemma Rpower_gt_1 (x y : R) : 1 < x -> 0 < y -> 1 < Rpower x y.
Proof.
  intros Hx Hy. rewrite <- (Rpower_O x) by lra. now apply Rpower_lt.
Qed.

Lemma volume_guard_in_range (db : Z) :
  (-96 <= db <= 0)%Z -> ((db >? 0)%Z || (db <? -96)%Z)%bool = false.
Proof.
  intros H. rewrite Z.gtb_ltb.
  destruct (Z.ltb_spec 0 db); destruct (Z.ltb_spec db (-96)); simpl; lia.
Qed.

Lemma volume_guard_out_of_range (db : Z) :
  (db < -96 \/ 0 < db)%Z -> ((db >? 0)%Z || (db <? -96)%Z)%bool = true.
Proof.
  intros H. rewrite Z.gtb_ltb.
  destruct (Z.ltb_spec 0 db); destruct (Z.ltb_spec db (-96)); simpl; lia.
Qed.

(** The valid phase domain of each waveform: [0, period), except the saw,
    which wraps at its half period and so lives in [-1, 1). *)
Definition in_domain (w : Waves.WaveForm) (phase : R) : Prop :=
  match w with
  | Waves.Saw => - Waves.saw_half_period <= phase < Waves.saw_half_period
  | _ => 0 <= phase < Waves.period w
  end.

Lemma period_pos (w : Waves.WaveForm) : 0 < Waves.period w.
Proof.
  destruct w; simpl; unfold Waves.TWO_PI; try lra; pose proof PI_RGT_0; lra.
Qed.

(** ** C10: the initial master gain *)

(** C10: a freshly built [Synth] has master gain 1024 for every sample rate
    and every sample type. This is above the largest amplitude of the 8-bit
    types, so for those types no accepted [set_volume] call (dB in
    [-96, 0]) yields that gain: the initial value is not the dB formula. *)
Theorem new_volume_is_1024 (t : Synth.SampleType) (sr : R) :
  Synth.volume (Synth.new t sr) = 1024 /\
  Synth.max_value Synth.U8 < 1024 /\ Synth.max_value Synth.I8 < 1024 /\
  (forall (t8 : Synth.SampleType) (db : Synth.dB),
     (t8 = Synth.U8 \/ t8 = Synth.I8) -> (-96 <= db <= 0)%Z ->
     Synth.volume (fst (Synth.set_volume (Synth.new t8 sr) db)) <> 1024).
Proof.
  split; [reflexivity |]. split; [simpl; lra |]. split; [simpl; lra |].
  intros t8 db Ht Hdb. unfold Synth.set_volume.
  rewrite volume_guard_in_range by lia. simpl.
  assert (Hp : Rpower 10 (IZR db / 20) <= 1).
  { apply Rpower_le_1; [lra |].
    assert (IZR db <= 0) by (apply IZR_le; lia). lra. }
  pose proof (Rpower_pos 10 (IZR db / 20)).
  destruct Ht as [-> | ->]; simpl; nra.
Qed.

Lemma new_volume_is_1024_witness :
  Synth.volume (fst (Synth.set_volume (Synth.new Synth.I8 44100) (-6)%Z)) <> 1024.
Proof.
  destruct (new_volume_is_1024 Synth.I8 44100) as [_ [_ [_ H]]].
  apply (H Synth.I8 (-6)%Z); [right; reflexivity | lia].
Defined.

(** ** C2: [set_volume] *)

(** C2: for every dB in [-96, 0], [set_volume] returns [Ok] and sets the
    master gain to [max_value * 10^(dB/20)] (nothing else changes); for
    every dB outside [-96, 0] it returns a validation error and the synth,
    its gain included, is left unchanged. *)
Theorem set_volume_spec (s : Synth.Synth) (db : Synth.dB) :
  ((-96 <= db <= 0)%Z ->
     snd (Synth.set_volume s db) = Synth.Ok tt /\
     Synth.volume (fst (Synth.set_volume s db))
       = Synth.max_value (Synth.sample_type s) * Rpower 10 (IZR db / 20) /\
     Synth.sample_rate (fst (Synth.set_volume s db)) = Synth.sample_rate s /\
     Synth.oscillators (fst (Synth.set_volume s db)) = Synth.oscillators s /\
     Synth.envelopes (fst (Synth.set_volume s db)) = Synth.envelopes s /\
     Synth.sample_type (fst (Synth.set_volume s db)) = Synth.sample_type s) /\
  ((db < -96 \/ 0 < db)%Z ->
     fst (Synth.set_volume s db) = s /\
     exists msg, snd (Synth.set_volume s db) = Synth.Err (Synth.SynthError msg)).
Proof.
  unfold Synth.set_volume. split.
  - intros H. rewrite volume_guard_in_range by exact H. simpl.
    repeat split; reflexivity.
  - intros H. rewrite volume_guard_out_of_range by exact H. simpl.
    split; [reflexivity | eexists; reflexivity].
Qed.

Lemma set_volume_spec_witness :
  Synth.volume (fst (Synth.set_volume (Synth.new Synth.I16 44100) (-36)%Z))
    = 32767 * Rpower 10 (IZR (-36) / 20) /\
  fst (Synth.set_volume (Synth.new Synth.I16 44100) 3%Z) = Synth.new Synth.I16 44100.
Proof.
  split.
  - apply (set_volume_spec (Synth.new Synth.I16 44100) (-36)%Z). lia.
  - apply (set_volume_spec (Synth.new Synth.I16 44100) 3%Z). lia.
Defined.

(** ** C7: runtime envelope parameter updates *)

(** C7 (divergence at a concrete input): on a fresh envelope,
    [set_parameter (Attack 0)] clamps the attack to 1 ms, but
    [set_parameter (Release 0)] stores a release of 0 ms, unclamped, and a
    release sample count of 0 derived from it, whereas [ADSR::new] clamps
    the release to [MIN_RELEASE] = 1 ms. *)
Theorem set_parameter_release_not_clamped :
  let e := Envelope.new 44100 300%nat 300%nat 0.5 300%nat in
  Envelope.attack (Envelope.set_parameter e (Envelope.Attack 0)) = 1 /\
  Envelope.release (Envelope.set_parameter e (Envelope.Release 0)) = 0 /\
  Envelope.release_samples (Envelope.set_parameter e (Envelope.Release 0)) = 0 /\
  Envelope.release (Envelope.new 44100 300%nat 300%nat 0.5 0%nat) = 1.
Proof.
  cbv zeta. unfold Envelope.set_parameter, Envelope.new.
  cbn [Envelope.attack Envelope.release Envelope.release_samples
       Envelope.sample_rate].
  unfold Envelope.MIN_RELEASE. rewrite Rmax_f32_r by lra.
  rewrite Rmax_f32_l by (simpl; lra). repeat split; lra.
Qed.

(** ** C9: [next_phase] *)

(** C9 (counterexample): with the triangle wave (domain [0, 4)), phase 0 and
    increment 2, [next_phase] subtracts the period only once and returns 4,
    which is outside the domain. *)
Lemma next_phase_large_incr_escapes :
  in_domain Waves.Triangle 0 /\
  Waves.next_phase Waves.Triangle 0 2 = 4 /\
  ~ in_domain Waves.Triangle (Waves.next_phase Waves.Triangle 0 2).
Proof.
  unfold Waves.next_phase, in_domain; simpl; split_R_decs; lra.
Qed.

(** C9 (amended): for every waveform, every phase in its domain and every
    increment in [0, 1) (a note below the sample rate), [next_phase] adds
    [incr * period], subtracts one period when the sum reaches the wrap
    point (the period, or the half period for the saw), and the result is
    back in the domain. *)
Theorem next_phase_wraps (w : Waves.WaveForm) (phase incr : R) :
  in_domain w phase -> 0 <= incr < 1 ->
  in_domain w (Waves.next_phase w phase incr) /\
  (Waves.next_phase w phase incr = phase + incr * Waves.period w \/
   Waves.next_phase w phase incr = phase + incr * Waves.period w - Waves.period w).
Proof.
  intros Hd Hi. pose proof (period_pos w) as Hp.
  assert (Hm : 0 <= incr * Waves.period w < Waves.period w) by nra.
  destruct w; unfold Waves.next_phase, in_domain in *;
    unfold Waves.saw_half_period in *; simpl in *; split_R_decs; lra.
Qed.

Lemma next_phase_wraps_witness :
  in_domain Waves.Saw (Waves.next_phase Waves.Saw 0.5 0.5).
Proof.
  apply (next_phase_wraps Waves.Saw 0.5 0.5);
    unfold in_domain, Waves.saw_half_period; lra.
Defined.

(** ** C5, C6: the envelope update *)

(** The derived fields of an envelope agree with its parameters. *)
Definition adsr_wf (e : Envelope.ADSR) : Prop :=
  Envelope.attack_incr e = 1 / (Envelope.attack e / 1000 * Envelope.sample_rate e) /\
  Envelope.decay_decr e
    = - ((1 - Envelope.sustain e) / (Envelope.decay e / 1000 * Envelope.sample_rate e)) /\
  Envelope.release_samples e = Envelope.release e / 1000 * Envelope.sample_rate e /\
  1 <= Envelope.attack e /\ 1 <= Envelope.decay e.

Lemma reachable_wf (e : Envelope.ADSR) : Envelope.reachable e -> adsr_wf e.
Proof.
  induction 1 as [sr a d s r | e [] _ IH].
  - unfold adsr_wf, Envelope.new; simpl. repeat split; try reflexivity;
      apply Rmax_f32_ge_l.
  - destruct IH as (H1 & H2 & H3 & H4 & H5).
    unfold adsr_wf, Envelope.set_parameter; simpl.
    repeat split; try assumption. apply Rmax_f32_ge_r.
  - destruct IH as (H1 & H2 & H3 & H4 & H5).
    unfold adsr_wf, Envelope.set_parameter; simpl. repeat split; try assumption.
    pose proof (Rmax_f32_ge_r val 3). lra.
  - destruct IH as (H1 & H2 & H3 & H4 & H5).
    unfold adsr_wf, Envelope.set_parameter; simpl. repeat split; assumption.
  - destruct IH as (H1 & H2 & H3 & H4 & H5).
    unfold adsr_wf, Envelope.set_parameter; simpl. repeat split; assumption.
Qed.

(** Successive envelope updates of one voice, at the call times [times]
    (the amplitude update of [get_sample] before its [min(1.0)]). *)
Fixpoint envelope_run (e : Envelope.ADSR) (current : R) (triggered : Instant)
    (released : option Released) (times : list Instant) : R :=
  match times with
  | [] => current
  | now :: times' =>
      envelope_run e (Envelope.get_volume_incr e current triggered released now)
                   triggered released times'
  end.

Lemma envelope_run_attack (e : Envelope.ADSR) (cur : R) (trig : Instant)
    (times : list Instant) :
  Forall (fun now => elapsed_millis trig now <= Envelope.attack e) times ->
  envelope_run e cur trig None times
    = cur + INR (length times) * Envelope.attack_incr e.
Proof.
  revert cur. induction times as [| t ts IH]; intros cur Hall;
    cbn [envelope_run length].
  - simpl; lra.
  - inversion Hall as [| ? ? Ht Hts]; subst.
    rewrite IH by exact Hts. unfold Envelope.get_volume_incr.
    destruct (Rle_dec (elapsed_millis trig t) (Envelope.attack e)); [| lra].
    rewrite S_INR. lra.
Qed.

Lemma envelope_run_release (e : Envelope.ADSR) (cur : R) (trig : Instant)
    (r : Released) (times : list Instant) :
  envelope_run e cur trig (Some r) times
    = cur - INR (length times) * (rel_value r / Envelope.release_samples e).
Proof.
  revert cur. induction times as [| t ts IH]; intros cur;
    cbn [envelope_run length].
  - simpl; lra.
  - rewrite IH. rewrite S_INR. simpl. lra.
Qed.

(** C5: for every envelope the program can build and every unreleased
    voice, an envelope update at [alive_for] ms after the trigger: adds
    exactly [1 / (attack/1000 * sample_rate)] while [alive_for <= attack];
    while [alive_for <= attack + decay] subtracts exactly
    [(1 - sustain) / (decay/1000 * sample_rate)] unless the result would be
    at or below [sustain], in which case it returns exactly [sustain];
    afterwards returns [sustain]. Starting from 0, after [k] updates inside
    the attack window with [k = ceil(attack/1000 * sample_rate)], the
    amplitude is at least 1 and less than 1 plus one increment. *)
Theorem envelope_unreleased_update (e : Envelope.ADSR) (cur : R)
    (trig now : Instant) (times : list Instant) :
  Envelope.reachable e ->
  let N := Envelope.attack e / 1000 * Envelope.sample_rate e in
  let incr := 1 / N in
  let decr := (1 - Envelope.sustain e)
              / (Envelope.decay e / 1000 * Envelope.sample_rate e) in
  let alive_for := elapsed_millis trig now in
  (alive_for <= Envelope.attack e ->
     Envelope.get_volume_incr e cur trig None now = cur + incr) /\
  (Envelope.attack e < alive_for <= Envelope.attack e + Envelope.decay e ->
     Envelope.sustain e < cur - decr ->
     Envelope.get_volume_incr e cur trig None now = cur - decr) /\
  (Envelope.attack e < alive_for <= Envelope.attack e + Envelope.decay e ->
     cur - decr <= Envelope.sustain e ->
     Envelope.get_volume_incr e cur trig None now = Envelope.sustain e) /\
  (Envelope.attack e + Envelope.decay e < alive_for ->
     Envelope.get_volume_incr e cur trig None now = Envelope.sustain e) /\
  (0 < Envelope.sample_rate e ->
     Forall (fun t => elapsed_millis trig t <= Envelope.attack e) times ->
     N <= INR (length times) < N + 1 ->
     1 <= envelope_run e 0 trig None times < 1 + incr).
Proof.
  intros Hr N incr decr alive_for.
  destruct (reachable_wf e Hr) as (Ha & Hd & _ & Hatt & Hdec).
  unfold Envelope.get_volume_incr; fold alive_for.
  rewrite Ha, Hd. fold N incr.
  replace (cur + - ((1 - Envelope.sustain e)
                    / (Envelope.decay e / 1000 * Envelope.sample_rate e)))
    with (cur - decr) by (unfold decr; lra).
  split; [| split; [| split; [| split]]].
  - intros H. destruct (Rle_dec alive_for (Envelope.attack e)); [reflexivity | lra].
  - intros H1 H2. destruct (Rle_dec alive_for (Envelope.attack e)); [lra |].
    destruct (Rle_dec alive_for (Envelope.attack e + Envelope.decay e)); [| lra].
    destruct (Rlt_dec (Envelope.sustain e) (cur - decr)); [reflexivity | lra].
  - intros H1 H2. destruct (Rle_dec alive_for (Envelope.attack e)); [lra |].
    destruct (Rle_dec alive_for (Envelope.attack e + Envelope.decay e)); [| lra].
    destruct (Rlt_dec (Envelope.sustain e) (cur - decr)); [lra | reflexivity].
  - intros H. destruct (Rle_dec alive_for (Envelope.attack e)); [lra |].
    destruct (Rle_dec alive_for (Envelope.attack e + Envelope.decay e)); [lra |].
    reflexivity.
  - intros Hsr Hall [Hlo Hhi]. rewrite envelope_run_attack by exact Hall.
    rewrite Ha. fold N incr.
    assert (HN : 0 < N) by (unfold N; nra).
    assert (Hx : N * incr = 1) by (unfold incr; field; lra).
    assert (0 < incr) by (unfold incr; apply Rdiv_lt_0_compat; lra).
    split; nra.
Qed.

Lemma envelope_unreleased_update_witness :
  let e := Envelope.new 1000 2%nat 2%nat 0.5 2%nat in
  1 <= envelope_run e 0 0%nat None [0%nat; 1%nat] /\
  Envelope.get_volume_incr e 0.9 0%nat None 3%nat
    = 0.9 - (1 - 0.5) / (2 / 1000 * 1000).
Proof.
  intros e.
  assert (Hatt : Envelope.attack e = 2)
    by (unfold e, Envelope.new, Rmax_f32, Envelope.MIN_ATTACK, Envelope.MIN_DECAY;
        simpl; split_R_decs; lra).
  assert (Hdec : Envelope.decay e = 2)
    by (unfold e, Envelope.new, Rmax_f32, Envelope.MIN_ATTACK, Envelope.MIN_DECAY;
        simpl; split_R_decs; lra).
  assert (Hsr : Envelope.sample_rate e = 1000) by reflexivity.
  assert (Hsus : Envelope.sustain e = 0.5) by reflexivity.
  pose proof (envelope_unreleased_update e 0.9 0%nat 3%nat [0%nat; 1%nat]
                (Envelope.reachable_new _ _ _ _ _)) as H.
  cbv zeta in H. rewrite Hatt, Hdec, Hsr, Hsus in H.
  destruct H as (_ & Hdecay & _ & _ & Hramp).
  split.
  - apply Hramp.
    + lra.
    + apply Forall_cons; [| apply Forall_cons; [| apply Forall_nil]];
        unfold elapsed_millis; simpl; lra.
    + simpl; lra.
  - apply Hdecay; unfold elapsed_millis; simpl; lra.
Defined.

(** C6: for every envelope the program can build and every released voice
    whose amplitude at release was [v0], each envelope update subtracts
    exactly [v0 / (release/1000 * sample_rate)], whatever the trigger time
    and the current time; after [k] updates the amplitude is
    [v0 - k * v0 / (release/1000 * sample_rate)], a linear ramp, and it is
    at or below 0 once [k >= release/1000 * sample_rate] (so after
    [ceil(release/1000 * sample_rate)] updates). *)
Theorem envelope_release_update (e : Envelope.ADSR) (r : Released) (cur : R)
    (trig now : Instant) (times : list Instant) :
  Envelope.reachable e ->
  let N := Envelope.release e / 1000 * Envelope.sample_rate e in
  Envelope.get_volume_incr e cur trig (Some r) now = cur - rel_value r / N /\
  envelope_run e (rel_value r) trig (Some r) times
    = rel_value r - INR (length times) * (rel_value r / N) /\
  (0 < Envelope.release e -> 0 < Envelope.sample_rate e -> 0 <= rel_value r ->
     N <= INR (length times) ->
     envelope_run e (rel_value r) trig (Some r) times <= 0).
Proof.
  intros Hr N.
  destruct (reachable_wf e Hr) as (_ & _ & Hrel & _ & _).
  assert (Hrun : envelope_run e (rel_value r) trig (Some r) times
                 = rel_value r - INR (length times) * (rel_value r / N))
    by (rewrite envelope_run_release, Hrel; reflexivity).
  split; [| split].
  - unfold Envelope.get_volume_incr. rewrite Hrel. reflexivity.
  - exact Hrun.
  - intros Hrl Hsr Hv Hk. rewrite Hrun.
    assert (HN : 0 < N) by (unfold N; nra).
    assert (Hx : N * (rel_value r / N) = rel_value r) by (field; lra).
    assert (0 <= rel_value r / N)
      by (unfold Rdiv; apply Rmult_le_pos; [lra | left; apply Rinv_0_lt_compat; lra]).
    nra.
Qed.

Lemma envelope_release_update_witness :
  let e := Envelope.new 1000 2%nat 2%nat 0.5 2%nat in
  envelope_run e 0.8 0%nat (Some (mkReleased 5%nat 0.8)) [6%nat; 7%nat] <= 0.
Proof.
  intros e.
  assert (Hrel : Envelope.release e = 2)
    by (unfold e, Envelope.new, Rmax_f32, Envelope.MIN_RELEASE;
        simpl; split_R_decs; lra).
  assert (Hsr : Envelope.sample_rate e = 1000) by reflexivity.
  pose proof (envelope_release_update e (mkReleased 5%nat 0.8) 0.8 0%nat 0%nat
                [6%nat; 7%nat] (Envelope.reachable_new _ _ _ _ _)) as H.
  cbv zeta in H. rewrite Hrel, Hsr in H.
  destruct H as (_ & _ & H).
  apply H; simpl; lra.
Defined.

(** ** C3, C4: the unison table *)

(** Consecutive partials [a; b] with [b] the reciprocal detune of [a] at the
    same volume. *)
Fixpoint symmetric_pairs (us : list Unison.Unison) : Prop :=
  match us with
  | [] => True
  | a :: b :: rest =>
      Unison.freq_mod b = 1 / Unison.freq_mod a /\
      Unison.volume b = Unison.volume a /\ symmetric_pairs rest
  | [_] => False
  end.

(** The pair loop of [set_unison_num], as a function of [pairs_num]. *)
Definition pair_block (tune : R) (pairs_num i : nat) : list Unison.Unison :=
  let fraction := INR (pairs_num - i) / INR pairs_num in
  let volume := 0.7 / INR pairs_num * INR (pairs_num - i) in
  let freq_mod := Rpower tune fraction in
  [Unison.mk freq_mod volume; Unison.mk (1 / freq_mod) volume].

Definition pair_list (tune : R) (pairs_num : nat) : list Unison.Unison :=
  flat_map (pair_block tune pairs_num) (seq 0 pairs_num).

Lemma pairs_num_eq (num : nat) : ((num - num mod 2) / 2 = num / 2)%nat.
Proof.
  pose proof (Nat.div_mod num 2 ltac:(lia)) as H.
  replace (num - num mod 2)%nat with (2 * (num / 2))%nat by lia.
  rewrite Nat.mul_comm. apply Nat.div_mul. lia.
Qed.

Lemma unison_table_eq (tune : R) (num : nat) :
  Oscillator.unison_table tune num =
  if Nat.leb num 1 then [Unison.mk tune 1]
  else (if Nat.eqb (num mod 2) 1 then [Unison.mk 1 1] else [])
       ++ pair_list tune (num / 2).
Proof.
  unfold Oscillator.unison_table, pair_list, pair_block.
  rewrite pairs_num_eq. reflexivity.
Qed.

Lemma set_unison_num_unisons (o : Oscillator.Oscillator) (num : nat) (g : Rng) :
  Oscillator.unisons (fst (Oscillator.set_unison_num o num g))
  = Oscillator.unison_table (Oscillator.tune o) num.
Proof.
  unfold Oscillator.set_unison_num.
  destruct (Oscillator.resync_voices _ _ _ _); reflexivity.
Qed.

Lemma flat_map_pairs_symmetric (tune : R) (p : nat) (l : list nat) :
  symmetric_pairs (flat_map (pair_block tune p) l).
Proof.
  induction l as [| i l IH]; simpl; [exact I |].
  split; [reflexivity | split; [reflexivity | exact IH]].
Qed.

Lemma flat_map_pairs_length (tune : R) (p : nat) (l : list nat) :
  length (flat_map (pair_block tune p) l) = (2 * length l)%nat.
Proof. induction l as [| i l IH]; simpl; [reflexivity | rewrite IH; lia]. Qed.

Lemma flat_map_pairs_nth (tune : R) (p : nat) (l : list nat) (i : nat) (d : nat) :
  (i < length l)%nat ->
  nth_error (flat_map (pair_block tune p) l) (2 * i)
    = Some (Unison.mk (Rpower tune (INR (p - nth i l d) / INR p))
                      (0.7 / INR p * INR (p - nth i l d))) /\
  nth_error (flat_map (pair_block tune p) l) (2 * i + 1)
    = Some (Unison.mk (1 / Rpower tune (INR (p - nth i l d) / INR p))
                      (0.7 / INR p * INR (p - nth i l d))).
Proof.
  revert i. induction l as [| k l IH]; intros i Hi; simpl in Hi; [lia |].
  destruct i as [| i].
  - simpl. split; reflexivity.
  - replace (2 * S i)%nat with (S (S (2 * i))) by lia.
    replace (2 * S i + 1)%nat with (S (S (2 * i + 1))) by lia.
    simpl. apply IH. lia.
Qed.

Lemma Rpower_eq_1 (t f : R) : 0 < t -> 0 < f -> Rpower t f = 1 -> t = 1.
Proof.
  intros Ht Hf H. unfold Rpower in H. rewrite <- exp_0 in H.
  apply exp_inv in H.
  assert (ln t = 0) by nra.
  apply ln_inv; [exact Ht | lra |]. rewrite ln_1. assumption.
Qed.

Lemma flat_map_pairs_not_1 (tune : R) (p : nat) (l : list nat) :
  0 < tune -> tune <> 1 -> Forall (fun i => i < p)%nat l ->
  Forall (fun u => Unison.freq_mod u <> 1) (flat_map (pair_block tune p) l).
Proof.
  intros Ht Hne Hl. induction Hl as [| i l Hi Hl IH]; simpl; [constructor |].
  assert (Hf : 0 < INR (p - i) / INR p).
  { apply Rdiv_lt_0_compat; apply lt_0_INR; lia. }
  assert (Hr : Rpower tune (INR (p - i) / INR p) <> 1)
    by (intros H; apply Hne; exact (Rpower_eq_1 _ _ Ht Hf H)).
  pose proof (Rpower_pos tune (INR (p - i) / INR p)) as Hpos.
  constructor; [exact Hr |]. constructor; [| exact IH].
  simpl. intros H. apply Hr.
  assert (Hx : Rpower tune (INR (p - i) / INR p) * (1 / Rpower tune (INR (p - i) / INR p)) = 1)
    by (field; lra).
  rewrite H in Hx. lra.
Qed.

(** C3 (counterexample): tune an oscillator by +1 cent (tune ratio
    [2^(1/1200)]), then [set_unison_num 1]: the only partial has frequency
    ratio [2^(1/1200)], not 1.0, so no partial has ratio 1.0. *)
Lemma set_unison_one_uses_tune :
  let g := (fun _ : nat => 0) in
  let o := fst (Oscillator.tune_by (Oscillator.new 44100 Waves.Sine 0 1) 1 g) in
  Oscillator.unisons (fst (Oscillator.set_unison_num o 1 g))
    = [Unison.mk (Rpower 2 (IZR 1 / (12 * 100))) 1] /\
  Rpower 2 (IZR 1 / (12 * 100)) <> 1.
Proof.
  cbv zeta. rewrite set_unison_num_unisons. split.
  - reflexivity.
  - apply Rgt_not_eq, Rpower_gt_1; lra.
Qed.

(** C3 (amended): after [set_unison_num n], whatever the tune ratio:
    for [n <= 1] the table is the single partial [(tune ratio, 1.0)];
    for odd [n >= 3] it is the centered partial [(1.0, 1.0)] followed by
    [floor(n/2)] symmetric pairs with reciprocal ratios; for even [n >= 2]
    it is [floor(n/2)] such pairs and nothing else (so [n = 4] gives 2 pairs
    and no centered partial, [n = 5] the centered partial and 2 pairs);
    when the tune ratio is positive and not 1, no pair partial has ratio
    1.0; the table always has at least one partial. *)
Theorem set_unison_num_parity (o : Oscillator.Oscillator) (num : nat) (g : Rng) :
  let us := Oscillator.unisons (fst (Oscillator.set_unison_num o num g)) in
  ((num <= 1)%nat -> us = [Unison.mk (Oscillator.tune o) 1]) /\
  ((2 <= num)%nat -> Nat.odd num = true ->
     exists ps, us = Unison.mk 1 1 :: ps /\ symmetric_pairs ps /\
                length ps = (2 * (num / 2))%nat /\
                (0 < Oscillator.tune o -> Oscillator.tune o <> 1 ->
                   Forall (fun u => Unison.freq_mod u <> 1) ps)) /\
  ((2 <= num)%nat -> Nat.odd num = false ->
     symmetric_pairs us /\ length us = (2 * (num / 2))%nat /\
     (0 < Oscillator.tune o -> Oscillator.tune o <> 1 ->
        Forall (fun u => Unison.freq_mod u <> 1) us)) /\
  (1 <= length us)%nat.
Proof.
  cbv zeta. rewrite set_unison_num_unisons, unison_table_eq.
  assert (Hmod : forall n, Nat.odd n = Nat.eqb (n mod 2) 1).
  { intros n. rewrite <- Nat.bit0_mod, Nat.bit0_odd.
    destruct (Nat.odd n); reflexivity. }
  assert (Hall : forall n, Forall (fun i => i < n)%nat (seq 0 n)).
  { intros n. apply Forall_forall. intros i Hi. apply in_seq in Hi. lia. }
  split; [| split; [| split]].
  - intros H. replace (Nat.leb num 1) with true
      by (symmetry; apply Nat.leb_le; lia). reflexivity.
  - intros H Hodd. replace (Nat.leb num 1) with false
      by (symmetry; apply Nat.leb_gt; lia).
    rewrite <- Hmod, Hodd. exists (pair_list (Oscillator.tune o) (num / 2)).
    unfold pair_list. split; [reflexivity |].
    split; [apply flat_map_pairs_symmetric |].
    split; [rewrite flat_map_pairs_length, length_seq; reflexivity |].
    intros Ht Hne. apply flat_map_pairs_not_1; auto.
  - intros H Hodd. replace (Nat.leb num 1) with false
      by (symmetry; apply Nat.leb_gt; lia).
    rewrite <- Hmod, Hodd. unfold pair_list. simpl app.
    split; [apply flat_map_pairs_symmetric |].
    split; [rewrite flat_map_pairs_length, length_seq; reflexivity |].
    intros Ht Hne. apply flat_map_pairs_not_1; auto.
  - destruct (Nat.leb num 1) eqn:E; [simpl; lia |].
    apply Nat.leb_gt in E. rewrite length_app. unfold pair_list.
    rewrite flat_map_pairs_length, length_seq.
    assert (1 <= num / 2)%nat by (apply Nat.div_le_lower_bound; lia). lia.
Qed.

Lemma set_unison_num_parity_witness :
  let g := (fun _ : nat => 0) in
  let o := Oscillator.new 44100 Waves.Sine 0 1 in
  Oscillator.unisons (fst (Oscillator.set_unison_num o 1 g)) = [Unison.mk 1 1] /\
  (exists ps, Oscillator.unisons (fst (Oscillator.set_unison_num o 5 g))
                = Unison.mk 1 1 :: ps /\ symmetric_pairs ps /\ length ps = 4%nat) /\
  symmetric_pairs (Oscillator.unisons (fst (Oscillator.set_unison_num o 4 g))) /\
  length (Oscillator.unisons (fst (Oscillator.set_unison_num o 4 g))) = 4%nat.
Proof.
  intros g o.
  destruct (set_unison_num_parity o 1 g) as (H1 & _ & _ & _).
  destruct (set_unison_num_parity o 5 g) as (_ & H5 & _ & _).
  destruct (set_unison_num_parity o 4 g) as (_ & _ & H4 & _).
  split; [| split].
  - apply H1. lia.
  - destruct (H5 ltac:(lia) eq_refl) as (ps & Hps & Hsym & Hlen & _).
    exists ps. split; [exact Hps |]. split; [exact Hsym | exact Hlen].
  - destruct (H4 ltac:(lia) eq_refl) as (Hsym & Hlen & _).
    split; [exact Hsym | exact Hlen].
Defined.

(** C4 (counterexample): tune an oscillator by +100 cents, then
    [set_unison_num 4]: the table is two pairs, the outer one at ratios
    [t^1] and [1/t^1] with volume 0.7, the inner one at [t^(1/2)] and
    [1/t^(1/2)] with volume 0.35. The least-detuned pair
    ([1 < t^(1/2) < t^1]) is the quieter one, not the loudest. *)
Lemma unison_inner_pair_quieter :
  let g := (fun _ : nat => 0) in
  let o := fst (Oscillator.tune_by (Oscillator.new 44100 Waves.Sine 0 1) 100 g) in
  let t := Oscillator.tune o in
  Oscillator.unisons (fst (Oscillator.set_unison_num o 4 g))
    = [Unison.mk (Rpower t 1) 0.7; Unison.mk (1 / Rpower t 1) 0.7;
       Unison.mk (Rpower t (1 / 2)) 0.35; Unison.mk (1 / Rpower t (1 / 2)) 0.35] /\
  1 < Rpower t (1 / 2) < Rpower t 1 /\ 0.35 < 0.7.
Proof.
  cbv zeta. rewrite set_unison_num_unisons, unison_table_eq.
  set (t := Oscillator.tune _).
  assert (Ht : t = Rpower 2 (IZR 100 / (12 * 100))) by reflexivity.
  assert (Ht1 : 1 < t) by (rewrite Ht; apply Rpower_gt_1; lra).
  split; [| split; [split | lra]].
  - unfold pair_list. simpl. unfold pair_block.
    replace ((1 + 1) / (1 + 1)) with 1 by field.
    replace (1 / (1 + 1)) with (1 / 2) by field.
    replace (0.7 / (1 + 1) * (1 + 1)) with 0.7 by lra.
    replace (0.7 / (1 + 1) * 1) with 0.35 by lra.
    reflexivity.
  - apply Rpower_gt_1; lra.
  - apply Rpower_lt; lra.
Qed.

(** C4 (amended): for [n >= 2], with [p = floor(n/2)] pairs placed after
    the centered partial (present iff [n] is odd), pair [i] ([0 <= i < p])
    is [(tune^f, v); (1/tune^f, v)] with fraction [f = (p - i)/p] (1 for
    the first pair, decreasing to [1/p]) and volume [v = 0.7/p * (p - i)]:
    the volumes never exceed 0.7 and decrease linearly with the pair
    index, so the most-detuned pair ([f = 1]) is the loudest (0.7) and the
    least-detuned one the quietest ([0.7/p]). *)
Theorem set_unison_num_pairs (o : Oscillator.Oscillator) (num i : nat) (g : Rng) :
  let us := Oscillator.unisons (fst (Oscillator.set_unison_num o num g)) in
  let p := (num / 2)%nat in
  let c := if Nat.odd num then 1%nat else 0%nat in
  let fraction (k : nat) := INR (p - k) / INR p in
  let vol (k : nat) := 0.7 / INR p * INR (p - k) in
  (2 <= num)%nat -> (i < p)%nat ->
  nth_error us (c + 2 * i) = Some (Unison.mk (Rpower (Oscillator.tune o) (fraction i)) (vol i)) /\
  nth_error us (c + 2 * i + 1)
    = Some (Unison.mk (1 / Rpower (Oscillator.tune o) (fraction i)) (vol i)) /\
  fraction 0%nat = 1 /\ 0 < fraction i <= 1 /\
  0 < vol i <= 0.7 /\ vol 0%nat = 0.7 /\
  (forall j, (i <= j < p)%nat -> fraction j <= fraction i /\ vol j <= vol i).
Proof.
  intros us p c fraction vol Hn Hi.
  assert (Hp : (1 <= p)%nat) by (apply Nat.div_le_lower_bound; lia).
  assert (HpR : 0 < INR p) by (apply lt_0_INR; lia).
  assert (Hus : us = (if Nat.eqb (num mod 2) 1 then [Unison.mk 1 1] else [])
                     ++ pair_list (Oscillator.tune o) p).
  { unfold us. rewrite set_unison_num_unisons, unison_table_eq.
    replace (Nat.leb num 1) with false by (symmetry; apply Nat.leb_gt; lia).
    reflexivity. }
  assert (Hmod : Nat.odd num = Nat.eqb (num mod 2) 1).
  { rewrite <- Nat.bit0_mod, Nat.bit0_odd. destruct (Nat.odd num); reflexivity. }
  assert (Hnth := flat_map_pairs_nth (Oscillator.tune o) p (seq 0 p) i 0%nat
                    ltac:(rewrite length_seq; lia)).
  rewrite seq_nth in Hnth by lia. simpl Nat.add in Hnth.
  assert (Hsub : forall k, (k <= p)%nat -> INR (p - k) = INR p - INR k)
    by (intros k Hk; rewrite minus_INR by lia; reflexivity).
  assert (Hik : INR i < INR p) by (apply lt_INR; lia).
  assert (Hi0 : 0 <= INR i) by apply pos_INR.
  split; [| split].
  - rewrite Hus. unfold c. rewrite Hmod.
    destruct (Nat.eqb (num mod 2) 1); simpl; apply Hnth.
  - rewrite Hus. unfold c. rewrite Hmod.
    destruct (Nat.eqb (num mod 2) 1); simpl; apply Hnth.
  - unfold fraction, vol. rewrite !Hsub by lia. rewrite INR_0.
    set (a := 0.7 / INR p).
    assert (Ha : a * INR p = 0.7)
      by (unfold a; replace 0.7 with (7 / 10) by lra; field; lra).
    assert (Ha0 : 0 < a) by (unfold a; apply Rdiv_lt_0_compat; lra).
    assert (Hdiv : forall x, 0 <= x -> 0 <= x / INR p)
      by (intros x Hx; unfold Rdiv; apply Rmult_le_pos;
          [lra | left; apply Rinv_0_lt_compat; lra]).
    assert (Hfi : (INR p - INR i) / INR p = 1 - INR i / INR p) by (field; lra).
    split; [field; lra |].
    split; [split |].
    + apply Rdiv_lt_0_compat; lra.
    + rewrite Hfi. pose proof (Hdiv (INR i) Hi0). lra.
    + split; [split; nra |].
      split; [replace (INR p - 0) with (INR p) by lra; exact Ha |].
      intros j Hj.
      assert (Hjk : INR i <= INR j) by (apply le_INR; lia).
      rewrite !Hsub by lia.
      split.
      * unfold Rdiv. apply Rmult_le_compat_r;
          [left; apply Rinv_0_lt_compat |]; lra.
      * apply Rmult_le_compat_l; lra.
Qed.

Lemma set_unison_num_pairs_witness :
  let g := (fun _ : nat => 0) in
  let o := Oscillator.new 44100 Waves.Sine 0 1 in
  nth_error (Oscillator.unisons (fst (Oscillator.set_unison_num o 5 g))) 3
    = Some (Unison.mk (Rpower 1 (INR (2 - 1) / INR 2)) (0.7 / INR 2 * INR (2 - 1))).
Proof.
  intros g o.
  apply (set_unison_num_pairs o 5 1 g); simpl; lia.
Defined.

(** ** C8: [note_on] idempotence *)

Ltac destruct_lets :=
  repeat match goal with
  | |- context [match ?X with pair _ _ => _ end] => destruct X
  end.

Lemma note_eqb_same (n n' : Note) :
  frequency n = frequency n' -> triggered_by n = triggered_by n' ->
  note_eqb n n' = true.
Proof.
  intros Hf Hk. unfold note_eqb. rewrite Hf, Hk.
  destruct (Req_EM_T _ _) as [_ | C]; [| congruence].
  simpl. apply Nat.eqb_refl.
Qed.

Lemma create_voice_noop (o : Oscillator.Oscillator) (note : Note) (g : Rng) :
  existsb (Oscillator.unreleased_match note) (Oscillator.voices o) = true ->
  Oscillator.create_voice o note g = (o, g).
Proof. intros H. unfold Oscillator.create_voice. rewrite H. reflexivity. Qed.

Lemma create_voice_adds (o : Oscillator.Oscillator) (note : Note) (g : Rng) :
  existsb (Oscillator.unreleased_match note) (Oscillator.voices o) = false ->
  exists us, fst (Oscillator.create_voice o note g)
             = Oscillator.set_voices o (Oscillator.voices o ++ [Voice.mk note 0 us]).
Proof.
  intros H. unfold Oscillator.create_voice. rewrite H.
  destruct_lets. eexists. reflexivity.
Qed.

Lemma existsb_false_filter {A} (f : A -> bool) (l : list A) :
  existsb f l = false -> filter f l = [].
Proof.
  induction l as [| x l IH]; simpl; [reflexivity |].
  destruct (f x); simpl; [discriminate | exact IH].
Qed.

(** One oscillator after [create_voice] with a note of [freq] and [key]. *)
Definition one_voice_added (freq : R) (key : KeyCode) (t : Instant)
    (o o1 : Oscillator.Oscillator) : Prop :=
  let n := Note_new freq key t in
  if existsb (Oscillator.unreleased_match n) (Oscillator.voices o) then o1 = o
  else exists us,
    o1 = Oscillator.set_voices o (Oscillator.voices o ++ [Voice.mk n 0 us]) /\
    length (filter (Oscillator.unreleased_match n) (Oscillator.voices o1)) = 1%nat.

Lemma create_voices_spec (os : list Oscillator.Oscillator) (freq : R)
    (key : KeyCode) (t : Instant) (g : Rng) :
  Forall2 (one_voice_added freq key t) os
          (fst (Synth.create_voices os (Note_new freq key t) g)).
Proof.
  revert g. induction os as [| o os IH]; intros g; simpl; [constructor |].
  destruct (Oscillator.create_voice o (Note_new freq key t) g) as [o1 g1] eqn:E.
  specialize (IH g1).
  destruct (Synth.create_voices os (Note_new freq key t) g1) as [rest g2].
  simpl in *. constructor; [| exact IH].
  unfold one_voice_added.
  destruct (existsb _ (Oscillator.voices o)) eqn:Ex.
  - rewrite create_voice_noop in E by exact Ex. congruence.
  - destruct (create_voice_adds o (Note_new freq key t) g Ex) as [us Hus].
    rewrite E in Hus. simpl in Hus. exists us. split; [exact Hus |].
    rewrite Hus. simpl. rewrite filter_app, existsb_false_filter by exact Ex.
    simpl. unfold Oscillator.unreleased_match.
    rewrite note_eqb_same by reflexivity. reflexivity.
Qed.

Lemma existsb_ext_eq {A} (f f' : A -> bool) (l : list A) :
  (forall x, f' x = f x) -> existsb f' l = existsb f l.
Proof.
  intros H. induction l as [| x l IH]; simpl; [reflexivity |].
  rewrite H, IH. reflexivity.
Qed.

Lemma one_voice_added_matches (freq : R) (key : KeyCode) (t t' : Instant)
    (o o1 : Oscillator.Oscillator) :
  one_voice_added freq key t o o1 ->
  existsb (Oscillator.unreleased_match (Note_new freq key t')) (Oscillator.voices o1)
    = true.
Proof.
  unfold one_voice_added.
  assert (Hm : forall v, Oscillator.unreleased_match (Note_new freq key t) v
                         = Oscillator.unreleased_match (Note_new freq key t') v).
  { intros v. unfold Oscillator.unreleased_match, note_eqb. reflexivity. }
  destruct (existsb _ (Oscillator.voices o)) eqn:Ex.
  - intros ->. rewrite <- Ex. apply existsb_ext_eq. intros v. symmetry. apply Hm.
  - intros [us [-> _]]. simpl. apply existsb_exists.
    exists (Voice.mk (Note_new freq key t) 0 us). split.
    + apply in_or_app. right. left. reflexivity.
    + unfold Oscillator.unreleased_match. simpl.
      rewrite note_eqb_same by reflexivity. reflexivity.
Qed.

Lemma create_voices_noop (os : list Oscillator.Oscillator) (note : Note) (g : Rng) :
  Forall (fun o => existsb (Oscillator.unreleased_match note) (Oscillator.voices o)
                   = true) os ->
  Synth.create_voices os note g = (os, g).
Proof.
  intros H. induction H as [| o os Ho Hos IH]; simpl; [reflexivity |].
  rewrite create_voice_noop by exact Ho. rewrite IH. reflexivity.
Qed.

Lemma Forall2_Forall_r {A B} (P : A -> B -> Prop) (Q : B -> Prop) l1 l2 :
  (forall a b, P a b -> Q b) -> Forall2 P l1 l2 -> Forall Q l2.
Proof. intros H HF. induction HF; constructor; eauto. Qed.

(** C8: two notes are equal iff their frequency and key match. Calling
    [note_on] with a (frequency, key) pair gives every oscillator that had
    no unreleased voice for the pair exactly one new voice for it (its only
    unreleased voice for the pair), and leaves the others unchanged; a
    second [note_on] with the same pair, at any later time, is then a
    no-op on the whole synth. *)
Theorem note_on_twice_one_voice (s : Synth.Synth) (freq : R) (key : KeyCode)
    (t1 t2 : Instant) (g g' : Rng) :
  let s1 := fst (Synth.note_on s freq key t1 g) in
  (forall n n' : Note,
     note_eqb n n' = true <-> frequency n = frequency n' /\ triggered_by n = triggered_by n') /\
  Forall2 (one_voice_added freq key t1) (Synth.oscillators s) (Synth.oscillators s1) /\
  Synth.note_on s1 freq key t2 g' = (s1, g').
Proof.
  intros s1.
  assert (H2 : Forall2 (one_voice_added freq key t1) (Synth.oscillators s)
                       (Synth.oscillators s1)).
  { unfold s1, Synth.note_on.
    pose proof (create_voices_spec (Synth.oscillators s) freq key t1 g) as H.
    destruct (Synth.create_voices _ _ _). exact H. }
  split; [| split; [exact H2 |]].
  - intros n n'. unfold note_eqb. split.
    + intros H. apply andb_prop in H. destruct H as [Hf Hk].
      destruct (Req_EM_T _ _); [| discriminate].
      split; [assumption | apply Nat.eqb_eq; exact Hk].
    + intros [Hf Hk]. apply note_eqb_same; assumption.
  - unfold Synth.note_on at 1. rewrite create_voices_noop.
    + destruct s1; reflexivity.
    + eapply Forall2_Forall_r; [| exact H2].
      intros o o1 Ho. eapply one_voice_added_matches. exact Ho.
Qed.

(** ** C1: [next] *)

Lemma square_voice_sample :
  snd (Oscillator.get_sample
         (Oscillator.set_voices (Oscillator.new 1000 Waves.Square 0 1)
            [Voice.mk (Note_new 1 0%nat 0%nat) 0
               [UnisonVoice.mk 0 (1 / 1000 * 1 * 1) 1]])
         (Envelope.new 1000 1%nat 1%nat 1 1%nat) 0%nat) = 0.7.
Proof.
  assert (E1 : Rmax_f32 1 1 = 1) by (unfold Rmax_f32; split_R_decs; lra).
  assert (E2 : Rmin_f32 1 1 = 1) by (unfold Rmin_f32; split_R_decs; lra).
  assert (E3 : Rmax_f32 1 0 = 1) by (unfold Rmax_f32; split_R_decs; lra).
  assert (E4 : 1 / (1 / 1000 * 1000) = 1) by field.
  assert (E5 : Rmin_f32 (0 + 1) 1 = 1) by (unfold Rmin_f32; split_R_decs; lra).
  unfold Oscillator.get_sample, Oscillator.voices_step, Oscillator.unisons_step,
    Envelope.get_volume_incr, elapsed_millis, Waves.wave_func,
    Envelope.new, Oscillator.new, Envelope.MIN_ATTACK, Envelope.MIN_DECAY,
    Envelope.MIN_RELEASE, Waves.square_half_period.
  simpl. rewrite ?E1, ?E2, ?E3, ?E4, ?E5.
  pose proof PI_RGT_0.
  split_R_decs; simpl; lra.
Qed.

(** C1 (counterexample): an [i8] synth at 1000 Hz with its initial gain
    1024, one envelope (1 ms attack) and one full-volume square oscillator,
    after [note_on]: the first [next] mixes 0.7, scales it to 716.8, which
    [from_f32] cannot convert to [i8], so the [unwrap] panics instead of
    producing a clamped sample. *)
Lemma next_out_of_range_panics :
  let s := fst (Synth.note_on
                  (Synth.add_osc
                     (Synth.add_env (Synth.new Synth.I8 1000)
                                    (Envelope.new 1000 1%nat 1%nat 1 1%nat))
                     (Oscillator.new 1000 Waves.Square 0 1))
                  1 0%nat 0%nat (fun _ => 0)) in
  Synth.next s 0%nat = None.
Proof.
  cbv zeta. unfold Synth.next. simpl.
  pose proof square_voice_sample as Hx.
  destruct (Oscillator.get_sample _ _ _) as [o' x]. simpl in Hx. subst x.
  unfold Synth.from_f32. simpl. split_R_decs; try reflexivity; lra.
Qed.

Lemma mix_spec (es : list Envelope.ADSR) (os : list Oscillator.Oscillator)
    (now : Instant) (acc : R) :
  Forall (fun o => (Oscillator.env_idx o < length es)%nat) os ->
  exists pairs,
    Forall2 (fun o p => exists env, nth_error es (Oscillator.env_idx o) = Some env /\
                                    Oscillator.get_sample o env now = p) os pairs /\
    Synth.mix es os now acc = Some (map fst pairs, fold_left Rplus (map snd pairs) acc).
Proof.
  intros H. revert acc. induction H as [| o os Ho Hos IH]; intros acc.
  - exists []. split; [constructor | reflexivity].
  - destruct (nth_error es (Oscillator.env_idx o)) as [env |] eqn:E.
    2: { apply nth_error_None in E. lia. }
    destruct (Oscillator.get_sample o env now) as [o' x] eqn:Eg.
    destruct (IH (acc + x)) as [pairs [HF Hm]].
    exists ((o', x) :: pairs). split.
    + constructor; [exists env; split; assumption | exact HF].
    + simpl. rewrite E, Eg, Hm. reflexivity.
Qed.

(** C1 (amended): when every oscillator's envelope index is in range,
    [next] runs each oscillator's [get_sample] on its referenced envelope
    and takes [v] = (sum of their samples) * master gain. For [f32] output
    it returns [v]. For an integer type with bounds [lo, hi] it returns
    [v] truncated toward zero when [lo - 1 < v < hi + 1], and otherwise the
    conversion fails and [next] panics: nothing is clamped. *)
Theorem next_spec (s : Synth.Synth) (now : Instant) :
  Forall (fun o => (Oscillator.env_idx o < length (Synth.envelopes s))%nat)
         (Synth.oscillators s) ->
  exists pairs,
    Forall2 (fun o p => exists env,
               nth_error (Synth.envelopes s) (Oscillator.env_idx o) = Some env /\
               Oscillator.get_sample o env now = p) (Synth.oscillators s) pairs /\
    let v := fold_left Rplus (map snd pairs) 0 * Synth.volume s in
    let s' := Synth.set_oscillators s (map fst pairs) in
    (Synth.sample_type s = Synth.F32 -> Synth.next s now = Some (s', Synth.SFloat v)) /\
    (forall lo hi, Synth.int_bounds (Synth.sample_type s) = Some (lo, hi) ->
       (IZR lo - 1 < v < IZR hi + 1 ->
          Synth.next s now = Some (s', Synth.SInt (Synth.trunc v))) /\
       (v <= IZR lo - 1 \/ IZR hi + 1 <= v -> Synth.next s now = None)).
Proof.
  intros H. destruct (mix_spec (Synth.envelopes s) (Synth.oscillators s) now 0 H)
    as [pairs [HF Hm]].
  exists pairs. split; [exact HF |]. cbv zeta.
  unfold Synth.next. rewrite Hm. unfold Synth.from_f32. split.
  - intros Ht. rewrite Ht. reflexivity.
  - intros lo hi Hb. rewrite Hb. split.
    + intros [H1 H2]. split_R_decs; [reflexivity | lra | lra].
    + intros Hout. split_R_decs; try reflexivity; lra.
Qed.

Lemma next_spec_witness :
  let s := Synth.add_osc
             (Synth.add_env (Synth.new Synth.I16 44100)
                            (Envelope.new 44100 10%nat 10%nat 0.5 10%nat))
             (Oscillator.new 44100 Waves.Sine 0 1) in
  exists pairs,
    Forall2 (fun o p => exists env,
               nth_error (Synth.envelopes s) (Oscillator.env_idx o) = Some env /\
               Oscillator.get_sample o env 0%nat = p) (Synth.oscillators s) pairs.
Proof.
  intros s.
  destruct (next_spec s 0%nat) as [pairs [HF _]].
  - repeat constructor.
  - exists pairs. exact HF.
Defined.

(** ** Further properties of the engine *)

Fixpoint dup {A} (l : list A) : list A :=
  match l with [] => [] | x :: l' => x :: x :: dup l' end.

Fixpoint next_iter (s : Synth.Synth) (clock : nat -> Instant) (k n : nat)
    : option (Synth.Synth * list Synth.Sample) :=
  match n with
  | O => Some (s, [])
  | S n' =>
      match Synth.next s (clock k) with
      | None => None
      | Some (s', x) =>
          match next_iter s' clock (S k) n' with
          | None => None
          | Some (s'', xs) => Some (s'', x :: xs)
          end
      end
  end.

Lemma fill_spec (n : nat) : forall s clock k x written,
  (written <= 1)%nat ->
  Main.fill s clock k x written n
  = match next_iter s clock k ((n + written) / 2) with
    | None => None
    | Some (s', xs) =>
        Some (s', (k + (n + written) / 2)%nat, firstn n (skipn written (dup (x :: xs))))
    end.
Proof.
  induction n as [| n IH]; intros s clock k x written Hw.
  - destruct written as [| [| w]]; [| | lia]; simpl; rewrite Nat.add_0_r; reflexivity.
  - destruct written as [| [| w]]; [| | lia].
    + simpl Main.fill. rewrite IH by lia.
      replace ((n + 1) / 2)%nat with ((S n + 0) / 2)%nat by (f_equal; lia).
      destruct (next_iter s clock k _) as [[s' xs] |]; reflexivity.
    + cbn [Main.fill]. change (Nat.eqb 2 Main.CHANNELS_NUM) with true. cbv iota.
      replace ((S n + 1) / 2)%nat with (S (n / 2)) by
        (replace (S n + 1)%nat with (n + 1 * 2)%nat by lia; rewrite Nat.div_add by lia; lia).
      cbn [next_iter].
      destruct (Synth.next s (clock k)) as [[s1 y] |]; [| reflexivity].
      rewrite IH by lia. rewrite Nat.add_0_r.
      destruct (next_iter s1 clock (S k) (n / 2)) as [[s' ys] |]; [| reflexivity].
      do 3 f_equal. lia.
Qed.

(** [main]'s stream callback: when the synth is not playing it returns
    [Complete] and writes nothing; otherwise, on a buffer of [len] slots,
    it calls [next] [len/2 + 1] times and writes each generated sample into
    two consecutive slots (the last generated sample is not written when
    [len] is even), and fails exactly when one of those [next] calls panics. *)
Theorem callback_spec (s : Synth.Synth) (clock : nat -> Instant) (len : nat) :
  (Synth.playing s = false -> Main.callback s clock len = Some (s, Main.Complete, None)) /\
  (Synth.playing s = true ->
   Main.callback s clock len
   = match next_iter s clock 0 (len / 2 + 1) with
     | None => None
     | Some (s', xs) => Some (s', Main.Continue, Some (firstn len (dup xs)))
     end).
Proof.
  unfold Main.callback. split; intros H; rewrite H; [reflexivity |]. cbn [negb].
  rewrite Nat.add_1_r. cbn [next_iter].
  destruct (Synth.next s (clock 0%nat)) as [[s1 x] |]; [| reflexivity].
  rewrite fill_spec by lia. rewrite Nat.add_0_r.
  destruct (next_iter s1 clock 1 (len / 2)) as [[s' xs] |]; reflexivity.
Qed.

Lemma get_sample_voices (o : Oscillator.Oscillator) (e : Envelope.ADSR) (now : Instant) :
  Oscillator.set_voices o (Oscillator.voices (fst (Oscillator.get_sample o e now)))
  = fst (Oscillator.get_sample o e now).
Proof.
  unfold Oscillator.get_sample. destruct_lets. reflexivity.
Qed.

Lemma mix_settings (es : list Envelope.ADSR) (os : list Oscillator.Oscillator)
    (now : Instant) (acc : R) os' t :
  Synth.mix es os now acc = Some (os', t) ->
  Forall2 (fun o o' => Oscillator.set_voices o (Oscillator.voices o') = o') os os'.
Proof.
  revert acc os' t. induction os as [| o os IH]; intros acc os' t H; simpl in H.
  - injection H as <- _. constructor.
  - destruct (nth_error es (Oscillator.env_idx o)) as [env |]; [| discriminate].
    pose proof (get_sample_voices o env now) as Hv.
    destruct (Oscillator.get_sample o env now) as [o1 x]. simpl in Hv.
    destruct (Synth.mix es os now (acc + x)) as [[rest tot] |] eqn:Em; [| discriminate].
    injection H as <- _. constructor; [exact Hv | exact (IH _ _ _ Em)].
Qed.

(** A successful [next] changes nothing but the oscillators' voices: the
    oscillator list keeps its length and every setting of each oscillator,
    and the envelopes, master gain, sample rate and sample type are kept. *)
Theorem next_changes_only_voices (s s' : Synth.Synth) (now : Instant) (x : Synth.Sample) :
  Synth.next s now = Some (s', x) ->
  Forall2 (fun o o' => Oscillator.set_voices o (Oscillator.voices o') = o')
          (Synth.oscillators s) (Synth.oscillators s') /\
  Synth.envelopes s' = Synth.envelopes s /\ Synth.volume s' = Synth.volume s /\
  Synth.sample_rate s' = Synth.sample_rate s /\ Synth.sample_type s' = Synth.sample_type s.
Proof.
  unfold Synth.next. intros H.
  destruct (Synth.mix _ _ _ _) as [[os t] |] eqn:Em; [| discriminate].
  destruct (Synth.from_f32 _ _); [| discriminate].
  injection H as <- _. simpl. repeat split; try reflexivity.
  exact (mix_settings _ _ _ _ _ _ Em).
Qed.

Lemma mix_missing (es : list Envelope.ADSR) (os : list Oscillator.Oscillator)
    (now : Instant) (acc : R) :
  Exists (fun o => (length es <= Oscillator.env_idx o)%nat) os ->
  Synth.mix es os now acc = None.
Proof.
  intros H. revert acc. induction H as [o os Ho | o os _ IH]; intros acc; simpl.
  - apply nth_error_None in Ho. rewrite Ho. reflexivity.
  - destruct (nth_error es (Oscillator.env_idx o)) as [env |]; [| reflexivity].
    destruct (Oscillator.get_sample o env now). rewrite IH. reflexivity.
Qed.

(** [next] panics as soon as one oscillator refers to an envelope index
    beyond the envelope list, whether or not that oscillator is playing. *)
Theorem next_missing_envelope_panics (s : Synth.Synth) (now : Instant) :
  Exists (fun o => (length (Synth.envelopes s) <= Oscillator.env_idx o)%nat)
         (Synth.oscillators s) ->
  Synth.next s now = None.
Proof.
  intros H. unfold Synth.next. rewrite mix_missing by exact H. reflexivity.
Qed.

Lemma get_sample_silent (o : Oscillator.Oscillator) (e : Envelope.ADSR) (now : Instant) :
  Oscillator.voices o = [] -> Oscillator.get_sample o e now = (o, 0).
Proof.
  intros H. destruct o; simpl in H; subst.
  unfold Oscillator.get_sample; simpl. f_equal. lra.
Qed.

Lemma mix_silent (es : list Envelope.ADSR) (os : list Oscillator.Oscillator)
    (now : Instant) (acc : R) :
  Forall (fun o => (Oscillator.env_idx o < length es)%nat /\ Oscillator.voices o = []) os ->
  Synth.mix es os now acc = Some (os, acc).
Proof.
  intros H. revert acc. induction H as [| o os [Hi Hv] _ IH]; intros acc; simpl;
    [reflexivity |].
  destruct (nth_error es (Oscillator.env_idx o)) as [env |] eqn:E.
  2: { apply nth_error_None in E. lia. }
  rewrite get_sample_silent by exact Hv. rewrite IH. f_equal. f_equal. lra.
Qed.

Lemma trunc_0 : Synth.trunc 0 = 0%Z.
Proof.
  unfold Synth.trunc. destruct (Rle_dec 0 0); [| lra].
  unfold Int_part. replace (up 0) with 1%Z; [reflexivity |].
  apply tech_up; simpl; lra.
Qed.

(** A synth with no voice (not [playing]) whose envelope indices are all
    valid produces the sample 0 of its type and keeps its state. *)
Theorem next_silent (s : Synth.Synth) (now : Instant) :
  Synth.playing s = false ->
  Forall (fun o => (Oscillator.env_idx o < length (Synth.envelopes s))%nat)
         (Synth.oscillators s) ->
  Synth.next s now
  = Some (s, match Synth.int_bounds (Synth.sample_type s) with
             | None => Synth.SFloat 0
             | Some _ => Synth.SInt 0
             end).
Proof.
  intros Hp Hi. unfold Synth.next. rewrite mix_silent.
  - destruct s as [sr vol os es t]; simpl.
    unfold Synth.set_oscillators, Synth.from_f32; simpl.
    replace (0 * vol) with 0 by lra.
    destruct t; simpl; split_R_decs; try lra; rewrite ?trunc_0; reflexivity.
  - unfold Synth.playing in Hp. induction Hi as [| o os Ho Hos IH]; constructor.
    + split; [exact Ho |]. simpl in Hp. apply Bool.orb_false_iff in Hp.
      destruct Hp as [Hp _]. unfold Oscillator.has_active_voices in Hp.
      destruct (Oscillator.voices o); [reflexivity | discriminate].
    + apply IH. simpl in Hp. apply Bool.orb_false_iff in Hp. apply Hp.
Qed.




Definition unreleased_of (key : KeyCode) (v : Voice.Voice) : bool :=
  Nat.eqb (triggered_by (Voice.note v)) key && is_none (released (Voice.note v)).

Definition voice_core (v : Voice.Voice) :=
  (frequency (Voice.note v), triggered_by (Voice.note v),
   triggered_time (Voice.note v), Voice.volume v, Voice.unisons v).

(** [voice_off key] releases exactly one unreleased voice triggered
    by [key], recording the release time and its current volume: no voice
    is added or removed, no note, volume or partial changes, the number of
    unreleased voices of [key] drops by one (or stays 0), and every other
    voice keeps its release state. *)
Theorem voice_off_releases_first (o : Oscillator.Oscillator) (key : KeyCode)
    (now : Instant) :
  let vs := Oscillator.voices o in
  let vs' := Oscillator.voices (Oscillator.voice_off o key now) in
  map voice_core vs' = map voice_core vs /\
  length (filter (unreleased_of key) vs') = (length (filter (unreleased_of key) vs) - 1)%nat /\
  Forall2 (fun v v' => released (Voice.note v') = released (Voice.note v) \/
             (unreleased_of key v = true /\
              released (Voice.note v') = Some (mkReleased now (Voice.volume v))))
          vs vs'.
Proof.
  cbv zeta. unfold Oscillator.voice_off. cbn [Oscillator.voices Oscillator.set_voices].
  induction (Oscillator.voices o) as [| v vs IH];
    cbn [Oscillator.voice_off_list map filter length]; [repeat constructor |].
  destruct IH as (H1 & H2 & H3).
  destruct (unreleased_of key v) eqn:Ev.
  - assert (Hc : (triggered_by (Voice.note v) =? key) && is_none (released (Voice.note v))
                 = true) by exact Ev.
    rewrite Hc.
    cbn [map filter length].
    assert (Hr : unreleased_of key (Oscillator.release_voice now v) = false).
    { unfold unreleased_of. simpl. apply Bool.andb_false_r. }
    rewrite Hr. split; [| split].
    + f_equal.
    + lia.
    + constructor; [right; split; [exact Ev | reflexivity] |].
      clear. induction vs; constructor; [left; reflexivity | exact IHvs].
  - assert (Hc : (triggered_by (Voice.note v) =? key) && is_none (released (Voice.note v))
                 = false) by exact Ev.
    rewrite Hc. cbn [map filter length]. rewrite Ev.
    split; [f_equal; exact H1 | split; [exact H2 |]].
    constructor; [left; reflexivity | exact H3].
Qed.

Lemma voice_off_length (o : Oscillator.Oscillator) (key : KeyCode) (now : Instant) :
  length (Oscillator.voices (Oscillator.voice_off o key now)) = length (Oscillator.voices o).
Proof.
  unfold Oscillator.voice_off. simpl.
  induction (Oscillator.voices o) as [| v vs IH]; simpl; [reflexivity |].
  destruct (_ && _); simpl; congruence.
Qed.

Lemma has_active_voices_length (o o' : Oscillator.Oscillator) :
  length (Oscillator.voices o') = length (Oscillator.voices o) ->
  Oscillator.has_active_voices o' = Oscillator.has_active_voices o.
Proof.
  unfold Oscillator.has_active_voices.
  destruct (Oscillator.voices o), (Oscillator.voices o'); simpl; congruence.
Qed.

(** [note_off] removes no voice from any oscillator, so it never changes
    whether the synth is [playing]. *)
Theorem note_off_keeps_voices (s : Synth.Synth) (key : KeyCode) (now : Instant) :
  Forall2 (fun o o' => length (Oscillator.voices o') = length (Oscillator.voices o))
          (Synth.oscillators s) (Synth.oscillators (Synth.note_off s key now)) /\
  Synth.playing (Synth.note_off s key now) = Synth.playing s.
Proof.
  unfold Synth.note_off, Synth.playing. simpl.
  induction (Synth.oscillators s) as [| o os IH]; simpl; [split; [constructor | reflexivity] |].
  destruct IH as [IH1 IH2]. split.
  - constructor; [apply voice_off_length | exact IH1].
  - rewrite IH2, (has_active_voices_length o) by apply voice_off_length. reflexivity.
Qed.

(** After [note_on], a synth with at least one oscillator is [playing]. *)
Theorem note_on_starts_playing (s : Synth.Synth) (freq : R) (key : KeyCode)
    (now : Instant) (g : Rng) :
  Synth.oscillators s <> [] ->
  Synth.playing (fst (Synth.note_on s freq key now g)) = true.
Proof.
  intros Hne. unfold Synth.note_on, Synth.playing.
  pose proof (create_voices_spec (Synth.oscillators s) freq key now g) as H.
  destruct (Synth.create_voices _ _ _) as [os g'] eqn:E. simpl in *.
  destruct (Synth.oscillators s) as [| o rest]; [congruence |].
  inversion H as [| ? o1 ? ? Ho Hrest]; subst. simpl.
  apply one_voice_added_matches with (t' := now) in Ho.
  unfold Oscillator.has_active_voices.
  destruct (Oscillator.voices o1); [discriminate | reflexivity].
Qed.

Lemma Rmin_f32_le_r (x y : R) : Rmin_f32 x y <= y.
Proof. unfold Rmin_f32; split_R_decs; lra. Qed.

Lemma voices_step_spec (w : Waves.WaveForm) (e : Envelope.ADSR) (now : Instant)
    (vs : list Voice.Voice) : forall smp m,
  let '(vs', _, m') := Oscillator.voices_step w e now vs smp m in
  map Voice.note vs' = map Voice.note vs /\
  Forall (fun v => Voice.volume v <= 1) vs' /\
  (m' = false -> Forall (fun v => 0.01 < Voice.volume v) vs') /\
  (m = true -> m' = true).
Proof.
  induction vs as [| v vs IH]; intros smp m; simpl.
  - repeat split; try constructor; auto.
  - pose proof (Rmin_f32_le_r
      (Envelope.get_volume_incr e (Voice.volume v) (triggered_time (Voice.note v))
         (released (Voice.note v)) now) 1) as Hle.
    destruct (Rle_dec _ 0.01) as [Hm | Hm].
    + specialize (IH smp true).
      destruct (Oscillator.voices_step w e now vs smp true) as [[rest s'] m'].
      destruct IH as (I1 & I2 & I3 & I4).
      repeat split.
      * simpl. f_equal. exact I1.
      * constructor; [exact Hle | exact I2].
      * intros Hf. rewrite I4 in Hf by reflexivity. discriminate.
      * intros _. apply I4. reflexivity.
    + destruct (Oscillator.unisons_step w (Voice.unisons v) 0) as [us' vsmp].
      specialize (IH (smp + vsmp * Rmin_f32
        (Envelope.get_volume_incr e (Voice.volume v) (triggered_time (Voice.note v))
           (released (Voice.note v)) now) 1) m).
      destruct (Oscillator.voices_step w e now vs _ m) as [[rest s'] m'].
      destruct IH as (I1 & I2 & I3 & I4).
      repeat split.
      * simpl. f_equal. exact I1.
      * constructor; [exact Hle | exact I2].
      * intros Hf. constructor; [simpl; lra | exact (I3 Hf)].
      * exact I4.
Qed.

Lemma filter_map_keep {A B} (P : B -> bool) (Q : A -> bool) (f : A -> B) (l : list A) :
  (forall x, P (f x) = true -> Q x = true) ->
  filter P (map f (filter Q l)) = filter P (map f l).
Proof.
  intros H. induction l as [| x l IH]; simpl; [reflexivity |].
  destruct (Q x) eqn:Eq; simpl.
  - rewrite IH. reflexivity.
  - destruct (P (f x)) eqn:Ep; [rewrite H in Eq by exact Ep; discriminate | exact IH].
Qed.

Lemma Forall_filter_keep {A} (P : A -> Prop) (f : A -> bool) (l : list A) :
  Forall P l -> Forall P (filter f l).
Proof.
  intros H. apply Forall_forall. intros x Hx. apply filter_In in Hx.
  rewrite Forall_forall in H. apply H, Hx.
Qed.

(** [get_sample] never removes an unreleased voice (the unreleased notes
    stay, in order), leaves no released voice at volume at most 0.01, and
    leaves every voice volume at most 1. *)
Theorem get_sample_removes_faded (o : Oscillator.Oscillator) (e : Envelope.ADSR)
    (now : Instant) :
  let o' := fst (Oscillator.get_sample o e now) in
  filter (fun n => is_none (released n)) (map Voice.note (Oscillator.voices o'))
    = filter (fun n => is_none (released n)) (map Voice.note (Oscillator.voices o)) /\
  Forall (fun v => Oscillator.released_and_muted v = false) (Oscillator.voices o') /\
  Forall (fun v => Voice.volume v <= 1) (Oscillator.voices o').
Proof.
  cbv zeta. unfold Oscillator.get_sample.
  pose proof (voices_step_spec (Oscillator.wave o) e now (Oscillator.voices o) 0 false) as H.
  destruct (Oscillator.voices_step _ _ _ _ _ _) as [[vs smp] m].
  destruct H as (H1 & H2 & H3 & _). simpl.
  destruct m.
  - split; [| split].
    + rewrite filter_map_keep; [rewrite H1; reflexivity |].
      intros v Hv. unfold Oscillator.released_and_muted, is_some.
      rewrite Hv. reflexivity.
    + apply Forall_forall. intros v Hv. apply filter_In in Hv.
      destruct Hv as [_ Hv]. apply Bool.negb_true_iff in Hv. exact Hv.
    + apply Forall_filter_keep. exact H2.
  - specialize (H3 eq_refl). split; [| split].
    + rewrite H1. reflexivity.
    + eapply Forall_impl; [| exact H3]. intros v Hv.
      unfold Oscillator.released_and_muted, Rleb.
      destruct (Rle_dec _ _); [lra | apply Bool.andb_false_r].
    + exact H2.
Qed.

Lemma next_phase_in_domain (w : Waves.WaveForm) (phase incr : R) :
  in_domain w phase -> 0 <= incr < 1 -> in_domain w (Waves.next_phase w phase incr).
Proof.
  intros Hd Hi. pose proof (period_pos w) as Hp.
  assert (Hm : 0 <= incr * Waves.period w < Waves.period w) by nra.
  destruct w; unfold Waves.next_phase, in_domain in *;
    unfold Waves.saw_half_period in *; simpl in *; split_R_decs; lra.
Qed.

(** Every partial of every voice has its phase in the wave's domain and an
    increment in [0, 1). *)
Definition partials_ok (w : Waves.WaveForm) (vs : list Voice.Voice) : Prop :=
  Forall (fun v => Forall (fun u => in_domain w (UnisonVoice.phase u) /\
                                    0 <= UnisonVoice.phase_incr u < 1)
                          (Voice.unisons v)) vs.

Lemma unisons_step_ok (w : Waves.WaveForm) (us : list UnisonVoice.UnisonVoice) (x : R) :
  Forall (fun u => in_domain w (UnisonVoice.phase u) /\ 0 <= UnisonVoice.phase_incr u < 1) us ->
  Forall (fun u => in_domain w (UnisonVoice.phase u) /\ 0 <= UnisonVoice.phase_incr u < 1)
         (fst (Oscillator.unisons_step w us x)).
Proof.
  revert x. induction us as [| u us IH]; intros x H; simpl; [constructor |].
  inversion H as [| ? ? [Hd Hi] Hus]; subst.
  specialize (IH (x + Waves.wave_func w (UnisonVoice.phase u) * UnisonVoice.volume u) Hus).
  destruct (Oscillator.unisons_step _ _ _) as [rest s]. simpl in *.
  constructor; [| exact IH]. simpl. split; [apply next_phase_in_domain |]; assumption.
Qed.

Lemma voices_step_ok (w : Waves.WaveForm) (e : Envelope.ADSR) (now : Instant)
    (vs : list Voice.Voice) (smp : R) (m : bool) :
  partials_ok w vs -> partials_ok w (fst (fst (Oscillator.voices_step w e now vs smp m))).
Proof.
  revert smp m. induction vs as [| v vs IH]; intros smp m H; simpl; [constructor |].
  inversion H as [| ? ? Hv Hvs]; subst.
  destruct (Rle_dec _ 0.01).
  - specialize (IH smp true Hvs).
    destruct (Oscillator.voices_step w e now vs smp true) as [[rest s'] m'].
    constructor; assumption.
  - pose proof (unisons_step_ok w (Voice.unisons v) 0 Hv) as Hu.
    destruct (Oscillator.unisons_step w (Voice.unisons v) 0) as [us' x].
    specialize (IH (smp + x * Rmin_f32 (Envelope.get_volume_incr e (Voice.volume v)
                      (triggered_time (Voice.note v)) (released (Voice.note v)) now) 1) m Hvs).
    destruct (Oscillator.voices_step w e now vs _ m) as [[rest s'] m'].
    constructor; assumption.
Qed.

(** If every partial of every voice has its phase in the wave's domain and
    an increment in [0, 1), this still holds after [get_sample]. *)
Theorem get_sample_keeps_phases (o : Oscillator.Oscillator) (e : Envelope.ADSR)
    (now : Instant) :
  partials_ok (Oscillator.wave o) (Oscillator.voices o) ->
  partials_ok (Oscillator.wave (fst (Oscillator.get_sample o e now)))
              (Oscillator.voices (fst (Oscillator.get_sample o e now))).
Proof.
  intros H. unfold Oscillator.get_sample.
  pose proof (voices_step_ok (Oscillator.wave o) e now (Oscillator.voices o) 0 false H) as Hs.
  destruct (Oscillator.voices_step _ _ _ _ _ _) as [[vs smp] m]. simpl in *.
  destruct m; [apply Forall_filter_keep |]; exact Hs.
Qed.

(** Every draw of the stream lies in [0, 1). *)
Definition draws_ok (g : Rng) : Prop := forall n, 0 <= g n < 1.

(** The period a hard or random start phase refers to is the current
    wave's period. *)
Definition ps_consistent (o : Oscillator.Oscillator) : Prop :=
  match Oscillator.phase_start o with
  | Oscillator.Soft => True
  | Oscillator.Hard p | Oscillator.Random p => p = Waves.period (Oscillator.wave o)
  end.

Lemma random_unisons_spec (period pi : R) (us : list Unison.Unison) (g : Rng) :
  0 < period -> draws_ok g ->
  let '(uvs, g') := Oscillator.random_unisons period pi us g in
  map UnisonVoice.volume uvs = map Unison.volume us /\
  map UnisonVoice.phase_incr uvs = map (fun u => pi * Unison.freq_mod u) us /\
  Forall (fun u => 0 <= UnisonVoice.phase u < period) uvs /\ draws_ok g'.
Proof.
  intros Hp. revert g. induction us as [| u us IH]; intros g Hg; simpl.
  - split; [reflexivity | split; [reflexivity | split; [constructor | exact Hg]]].
  - assert (Hg1 : draws_ok (fun n => g (S n))) by (intros n; apply Hg).
    specialize (IH _ Hg1).
    destruct (Oscillator.random_unisons period pi us _) as [rest g2].
    destruct IH as (I1 & I2 & I3 & I4).
    split; [simpl; f_equal; exact I1 |]. split; [simpl; f_equal; exact I2 |].
    split; [| exact I4].
    constructor; [| exact I3]. simpl. specialize (Hg 0%nat). nra.
Qed.

(** When [create_voice] adds a voice, it is appended with volume 0 and one
    partial per unison entry, with the entry's volume and phase increment
    [frequency / sample_rate * transpose * freq_mod]; with draws in [0, 1)
    and a start mode that refers to the current wave, every partial starts
    at a phase in [0, period). *)
Theorem create_voice_new_partials (o : Oscillator.Oscillator) (note : Note) (g : Rng) :
  draws_ok g -> ps_consistent o ->
  existsb (Oscillator.unreleased_match note) (Oscillator.voices o) = false ->
  exists us,
    Oscillator.voices (fst (Oscillator.create_voice o note g))
      = Oscillator.voices o ++ [Voice.mk note 0 us] /\
    map UnisonVoice.volume us = map Unison.volume (Oscillator.unisons o) /\
    map UnisonVoice.phase_incr us
      = map (fun u => frequency note / Oscillator.sample_rate o * Oscillator.transpose o
                      * Unison.freq_mod u) (Oscillator.unisons o) /\
    Forall (fun u => 0 <= UnisonVoice.phase u < Waves.period (Oscillator.wave o)) us.
Proof.
  intros Hg Hps Hex. unfold Oscillator.create_voice. rewrite Hex.
  pose proof (period_pos (Oscillator.wave o)) as Hp.
  set (pi := frequency note / Oscillator.sample_rate o * Oscillator.transpose o).
  destruct (Nat.eqb (length (Oscillator.unisons o) mod 2) 1) eqn:Eodd.
  - destruct (Oscillator.unisons o) as [| c rest] eqn:Eu.
    + discriminate.
    + unfold Oscillator.value.
      destruct (Oscillator.phase_start o) as [| p | p] eqn:Eps.
      * pose proof (random_unisons_spec (Waves.period (Oscillator.wave o)) pi rest g Hp Hg) as R.
        destruct (Oscillator.random_unisons _ _ _ _) as [others g2].
        destruct R as (R1 & R2 & R3 & _).
        eexists. split; [reflexivity |]. simpl.
        repeat split; try (f_equal; assumption). constructor; [simpl; lra | exact R3].
      * unfold ps_consistent in Hps. rewrite Eps in Hps. subst p.
        pose proof (random_unisons_spec (Waves.period (Oscillator.wave o)) pi rest g Hp Hg) as R.
        destruct (Oscillator.random_unisons _ _ _ _) as [others g2].
        destruct R as (R1 & R2 & R3 & _).
        eexists. split; [reflexivity |]. simpl.
        repeat split; try (f_equal; assumption). constructor; [simpl; lra | exact R3].
      * unfold ps_consistent in Hps. rewrite Eps in Hps. subst p.
        assert (Hg1 : draws_ok (fun n => g (S n))) by (intros n; apply Hg).
        pose proof (random_unisons_spec (Waves.period (Oscillator.wave o)) pi rest _ Hp Hg1) as R.
        simpl.
        destruct (Oscillator.random_unisons _ _ _ _) as [others g2].
        destruct R as (R1 & R2 & R3 & _).
        eexists. split; [reflexivity |]. simpl.
        repeat split; try (f_equal; assumption). constructor; [| exact R3].
        simpl. specialize (Hg 0%nat). nra.
  - pose proof (random_unisons_spec (Waves.period (Oscillator.wave o)) pi
                  (Oscillator.unisons o) g Hp Hg) as R.
    destruct (Oscillator.random_unisons _ _ _ _) as [others g2].
    destruct R as (R1 & R2 & R3 & _).
    eexists. split; [reflexivity |]. simpl. repeat split; assumption.
Qed.


(** Transposing by [a] then by [b] equals transposing directly by [b]
    (each partial's increment is rescaled relative to the transpose in
    force), for a nonzero current transpose. *)
Theorem transpose_by_compose (o : Oscillator.Oscillator) (a b : Z) :
  Oscillator.transpose o <> 0 ->
  Oscillator.transpose_by (Oscillator.transpose_by o a) b = Oscillator.transpose_by o b.
Proof.
  intros H. destruct o. unfold Oscillator.transpose_by. simpl in *.
  f_equal. rewrite map_map. apply map_ext. intros v. simpl. f_equal.
  rewrite map_map. apply map_ext. intros u. simpl. f_equal.
  pose proof (Rpower_pos 2 (IZR a / 12)). field. lra.
Qed.

Lemma resync_unisons_spec (period pi : R) (table : list Unison.Unison) :
  forall (phases : list R) (g : Rng),
  let us := fst (Oscillator.resync_unisons period pi phases table g) in
  map UnisonVoice.volume us = map Unison.volume table /\
  map UnisonVoice.phase_incr us = map (fun u => pi * Unison.freq_mod u) table /\
  firstn (length phases) (map UnisonVoice.phase us) = firstn (length table) phases.
Proof.
  induction table as [| u table IH]; intros phases g; simpl.
  - split; [reflexivity | split; [reflexivity |]]. rewrite firstn_nil. reflexivity.
  - destruct phases as [| p ps].
    + cbn [tl]. specialize (IH [] (fun n => g (S n))).
      destruct (Oscillator.resync_unisons period pi [] table _) as [rest g2]. simpl in *.
      destruct IH as (I1 & I2 & _).
      split; [f_equal; exact I1 | split; [f_equal; exact I2 | reflexivity]].
    + cbn [tl]. specialize (IH ps g).
      destruct (Oscillator.resync_unisons period pi ps table g) as [rest g2]. simpl in *.
      destruct IH as (I1 & I2 & I3).
      split; [f_equal; exact I1 | split; [f_equal; exact I2 |]].
      simpl. f_equal. exact I3.
Qed.

Lemma resync_voices_spec (o : Oscillator.Oscillator) (table : list Unison.Unison)
    (vs : list Voice.Voice) : forall g,
  Forall2 (fun v v' =>
      Voice.note v' = Voice.note v /\ Voice.volume v' = Voice.volume v /\
      map UnisonVoice.volume (Voice.unisons v') = map Unison.volume table /\
      map UnisonVoice.phase_incr (Voice.unisons v')
        = map (fun u => frequency (Voice.note v) * Oscillator.transpose o
                        / Oscillator.sample_rate o * Unison.freq_mod u) table /\
      firstn (length (Voice.unisons v)) (map UnisonVoice.phase (Voice.unisons v'))
        = firstn (length table) (map UnisonVoice.phase (Voice.unisons v)))
    vs (fst (Oscillator.resync_voices o table vs g)).
Proof.
  induction vs as [| v vs IH]; intros g; simpl; [constructor |].
  pose proof (resync_unisons_spec (Waves.period (Oscillator.wave o))
                (frequency (Voice.note v) * Oscillator.transpose o / Oscillator.sample_rate o)
                table (map UnisonVoice.phase (Voice.unisons v)) g) as R.
  destruct (Oscillator.resync_unisons _ _ _ _ _) as [us g1]. simpl in R.
  specialize (IH g1).
  destruct (Oscillator.resync_voices o table vs g1) as [rest g2]. simpl in *.
  rewrite length_map in R. destruct R as (R1 & R2 & R3).
  constructor; [| exact IH].
  repeat split; assumption.
Qed.

(** [set_unison_num] keeps every voice, its note and its volume; each voice
    gets one partial per new table entry, with the entry's volume and
    increment [frequency * transpose / sample_rate * freq_mod], and the
    first [min(old, new)] partials keep their phases. *)
Theorem set_unison_num_resyncs_voices (o : Oscillator.Oscillator) (num : nat) (g : Rng) :
  let o' := fst (Oscillator.set_unison_num o num g) in
  Forall2 (fun v v' =>
      Voice.note v' = Voice.note v /\ Voice.volume v' = Voice.volume v /\
      map UnisonVoice.volume (Voice.unisons v') = map Unison.volume (Oscillator.unisons o') /\
      map UnisonVoice.phase_incr (Voice.unisons v')
        = map (fun u => frequency (Voice.note v) * Oscillator.transpose o
                        / Oscillator.sample_rate o * Unison.freq_mod u)
              (Oscillator.unisons o') /\
      firstn (length (Voice.unisons v)) (map UnisonVoice.phase (Voice.unisons v'))
        = firstn (length (Oscillator.unisons o')) (map UnisonVoice.phase (Voice.unisons v)))
    (Oscillator.voices o) (Oscillator.voices o').
Proof.
  cbv zeta. rewrite set_unison_num_unisons.
  pose proof (resync_voices_spec o (Oscillator.unison_table (Oscillator.tune o) num)
                (Oscillator.voices o) g) as H.
  unfold Oscillator.set_unison_num.
  destruct (Oscillator.resync_voices _ _ _ _) as [vs g']. exact H.
Qed.

Lemma unison_table_length (tune : R) (num : nat) :
  length (Oscillator.unison_table tune num) = if Nat.leb num 1 then 1%nat else num.
Proof.
  rewrite unison_table_eq. destruct (Nat.leb num 1) eqn:E; [reflexivity |].
  apply Nat.leb_gt in E. rewrite length_app. unfold pair_list.
  rewrite flat_map_pairs_length, length_seq.
  pose proof (Nat.div_mod num 2 ltac:(lia)) as Hd.
  pose proof (Nat.mod_upper_bound num 2 ltac:(lia)) as Hm.
  destruct (Nat.eqb (num mod 2) 1) eqn:Eo; cbn [length].
  - apply Nat.eqb_eq in Eo. lia.
  - apply Nat.eqb_neq in Eo. lia.
Qed.

(** [tune] sets the tune ratio to [2^(cents/1200)] and keeps the number of
    unison partials. *)
Theorem tune_by_keeps_partial_count (o : Oscillator.Oscillator) (cents : Z) (g : Rng) :
  (1 <= length (Oscillator.unisons o))%nat ->
  length (Oscillator.unisons (fst (Oscillator.tune_by o cents g)))
    = length (Oscillator.unisons o) /\
  Oscillator.tune (fst (Oscillator.tune_by o cents g)) = Rpower 2 (IZR cents / (12 * 100)).
Proof.
  intros H. unfold Oscillator.tune_by. split.
  - rewrite set_unison_num_unisons, unison_table_length. cbn [Oscillator.unisons].
    destruct (Nat.leb _ 1) eqn:E; [apply Nat.leb_le in E; lia | reflexivity].
  - unfold Oscillator.set_unison_num.
    destruct (Oscillator.resync_voices _ _ _ _). reflexivity.
Qed.

Lemma Rpower_1_base (y : R) : Rpower 1 y = 1.
Proof. unfold Rpower. rewrite ln_1, Rmult_0_r. apply exp_0. Qed.

(** After [tune(0)], every unison partial has frequency ratio 1. *)
Theorem tune_by_zero_no_detune (o : Oscillator.Oscillator) (g : Rng) :
  Forall (fun u => Unison.freq_mod u = 1)
         (Oscillator.unisons (fst (Oscillator.tune_by o 0 g))).
Proof.
  unfold Oscillator.tune_by. rewrite set_unison_num_unisons. simpl.
  replace (0 / (12 * 100)) with 0 by field. rewrite Rpower_O by lra.
  rewrite unison_table_eq.
  destruct (Nat.leb _ 1); [repeat constructor |].
  apply Forall_app. split.
  - destruct (Nat.eqb _ 1); repeat constructor.
  - unfold pair_list. induction (seq 0 _) as [| i l IH]; simpl; [constructor |].
    unfold pair_block. rewrite Rpower_1_base.
    constructor; [reflexivity | constructor; [simpl; field | exact IH]].
Qed.

Lemma nth_error_replace {A} (l : list A) (i j : nat) (x : A) :
  (i < length l)%nat ->
  nth_error (firstn i l ++ x :: skipn (S i) l) j
  = if Nat.eqb j i then Some x else nth_error l j.
Proof.
  intros Hi. destruct (Nat.eqb_spec j i) as [-> | Hne].
  - rewrite nth_error_app2 by (rewrite length_firstn; lia).
    rewrite length_firstn, Nat.min_l by lia. rewrite Nat.sub_diag. reflexivity.
  - destruct (Nat.lt_ge_cases j i) as [Hlt | Hge].
    + rewrite nth_error_app1 by (rewrite length_firstn; lia).
      rewrite nth_error_firstn. destruct (Nat.ltb_spec j i); [reflexivity | lia].
    + rewrite nth_error_app2 by (rewrite length_firstn; lia).
      rewrite length_firstn, Nat.min_l by lia.
      replace (j - i)%nat with (S (j - S i)) by lia. cbn [nth_error].
      rewrite nth_error_skipn. f_equal. lia.
Qed.

Lemma length_replace {A} (l : list A) (i : nat) (x : A) :
  (i < length l)%nat -> length (firstn i l ++ x :: skipn (S i) l) = length l.
Proof.
  intros Hi. rewrite length_app, length_firstn. cbn [length]. rewrite length_skipn. lia.
Qed.

(** The per-oscillator setters of [Synth] ([set_transpose],
    [set_osc_volume], [set_waveform], [set_env]): an index out of range
    panics; otherwise only the indexed oscillator is updated, and the
    envelopes, gain and sample type are kept. *)
Theorem update_osc_spec (s : Synth.Synth) (i : nat)
    (f : Oscillator.Oscillator -> Oscillator.Oscillator) :
  ((length (Synth.oscillators s) <= i)%nat -> Synth.update_osc s i f = None) /\
  ((i < length (Synth.oscillators s))%nat ->
   exists s', Synth.update_osc s i f = Some s' /\
     length (Synth.oscillators s') = length (Synth.oscillators s) /\
     (forall j, nth_error (Synth.oscillators s') j
                = if Nat.eqb j i then option_map f (nth_error (Synth.oscillators s) j)
                  else nth_error (Synth.oscillators s) j) /\
     Synth.envelopes s' = Synth.envelopes s /\ Synth.volume s' = Synth.volume s /\
     Synth.sample_type s' = Synth.sample_type s).
Proof.
  unfold Synth.update_osc. split; intros Hi.
  - apply nth_error_None in Hi. rewrite Hi. reflexivity.
  - destruct (nth_error (Synth.oscillators s) i) as [o |] eqn:E.
    2: { apply nth_error_None in E. lia. }
    eexists. split; [reflexivity |]. cbn [Synth.set_oscillators Synth.oscillators Synth.envelopes Synth.volume Synth.sample_type].
    split; [apply length_replace; exact Hi |].
    split; [| repeat split].
    intros j. rewrite nth_error_replace by exact Hi.
    destruct (Nat.eqb_spec j i) as [-> | _]; [rewrite E |]; reflexivity.
Qed.



(** [set_env] accepts an envelope index beyond the envelope list, after
    which every [next] panics. *)
Theorem set_env_dangling_panics (s s' : Synth.Synth) (osc_idx env_idx : nat)
    (now : Instant) :
  (length (Synth.envelopes s) <= env_idx)%nat ->
  Synth.set_env s osc_idx env_idx = Some s' ->
  Synth.next s' now = None.
Proof.
  intros Hk H. unfold Synth.set_env, Synth.update_osc in H.
  destruct (nth_error (Synth.oscillators s) osc_idx) as [o |] eqn:E; [| discriminate].
  injection H as <-. unfold Synth.next.
  rewrite mix_missing; [reflexivity |].
  cbn [Synth.set_oscillators Synth.oscillators Synth.envelopes].
  apply Exists_app. right. left. exact Hk.
Qed.

(** [set_env_parameter] panics on an index out of range; otherwise it
    applies [set_parameter] to that envelope only, keeps the oscillators,
    and keeps every envelope one the program can build. *)
Theorem set_env_parameter_spec (s : Synth.Synth) (i : nat) (p : Envelope.ADSRParam) :
  ((length (Synth.envelopes s) <= i)%nat -> Synth.set_env_parameter s i p = None) /\
  ((i < length (Synth.envelopes s))%nat ->
   exists s', Synth.set_env_parameter s i p = Some s' /\
     (forall j, nth_error (Synth.envelopes s') j
                = if Nat.eqb j i
                  then option_map (fun e => Envelope.set_parameter e p)
                                  (nth_error (Synth.envelopes s) j)
                  else nth_error (Synth.envelopes s) j) /\
     Synth.oscillators s' = Synth.oscillators s /\
     (Forall Envelope.reachable (Synth.envelopes s) ->
      Forall Envelope.reachable (Synth.envelopes s'))).
Proof.
  unfold Synth.set_env_parameter. split; intros Hi.
  - apply nth_error_None in Hi. rewrite Hi. reflexivity.
  - destruct (nth_error (Synth.envelopes s) i) as [e |] eqn:E.
    2: { apply nth_error_None in E. lia. }
    eexists. split; [reflexivity |].
    cbn [Synth.set_envelopes Synth.envelopes Synth.oscillators].
    assert (Hn : forall j, nth_error (firstn i (Synth.envelopes s)
                   ++ Envelope.set_parameter e p :: skipn (S i) (Synth.envelopes s)) j
                 = if Nat.eqb j i
                   then option_map (fun e => Envelope.set_parameter e p)
                                   (nth_error (Synth.envelopes s) j)
                   else nth_error (Synth.envelopes s) j).
    { intros j. rewrite nth_error_replace by exact Hi.
      destruct (Nat.eqb_spec j i) as [-> | _]; [rewrite E |]; reflexivity. }
    split; [exact Hn | split; [reflexivity |]].
    intros Hr. apply Forall_forall. intros x Hx.
    apply In_nth_error in Hx. destruct Hx as [j Hj]. rewrite Hn in Hj.
    rewrite Forall_forall in Hr. revert Hj.
    destruct (Nat.eqb_spec j i) as [Heq | _]; intros Hj.
    + subst j. rewrite E in Hj. injection Hj as <-. apply Envelope.reachable_set.
      apply Hr. eapply nth_error_In. exact E.
    + apply Hr. eapply nth_error_In. exact Hj.
Qed.

(** On its phase domain every waveform's value lies in [-1, 1]. *)
Theorem wave_func_bounded (w : Waves.WaveForm) (phase : R) :
  in_domain w phase -> -1 <= Waves.wave_func w phase <= 1.
Proof.
  intros H. destruct w; unfold in_domain, Waves.wave_func in *; simpl in *.
  - apply SIN_bound.
  - split_R_decs; lra.
  - unfold Waves.pulse_upper_part. split_R_decs; lra.
  - unfold Waves.saw_half_period in H. lra.
  - unfold Waves.triangle_amplitide, Waves.triangle_half_amplitude.
    unfold Rabs; destruct (Rcase_abs _); lra.
Qed.


Definition partial_weight (us : list UnisonVoice.UnisonVoice) : R :=
  fold_right (fun u acc => Rabs (UnisonVoice.volume u) + acc) 0 us.

Definition voices_weight (vs : list Voice.Voice) : R :=
  fold_right (fun v acc => partial_weight (Voice.unisons v) + acc) 0 vs.

Lemma partial_weight_nonneg (us : list UnisonVoice.UnisonVoice) : 0 <= partial_weight us.
Proof.
  induction us as [| u us IH]; simpl; [lra |]. pose proof (Rabs_pos (UnisonVoice.volume u)). lra.
Qed.

Lemma unisons_step_bound (w : Waves.WaveForm) (us : list UnisonVoice.UnisonVoice) (x : R) :
  Forall (fun u => in_domain w (UnisonVoice.phase u)) us ->
  Rabs (snd (Oscillator.unisons_step w us x) - x) <= partial_weight us.
Proof.
  revert x. induction us as [| u us IH]; intros x H; simpl.
  - unfold Rminus. rewrite Rplus_opp_r, Rabs_R0. lra.
  - inversion H as [| ? ? Hu Hus]; subst.
    set (y := Waves.wave_func w (UnisonVoice.phase u) * UnisonVoice.volume u).
    specialize (IH (x + y) Hus).
    destruct (Oscillator.unisons_step w us (x + y)) as [rest s]. simpl in *.
    pose proof (wave_func_bounded w _ Hu) as Hw.
    assert (Hy : Rabs y <= Rabs (UnisonVoice.volume u)).
    { unfold y. rewrite Rabs_mult.
      assert (Rabs (Waves.wave_func w (UnisonVoice.phase u)) <= 1)
        by (apply Rabs_le; lra).
      pose proof (Rabs_pos (UnisonVoice.volume u)).
      pose proof (Rabs_pos (Waves.wave_func w (UnisonVoice.phase u))). nra. }
    replace (s - x) with ((s - (x + y)) + y) by ring.
    eapply Rle_trans; [apply Rabs_triang |]. lra.
Qed.

Lemma voices_step_bound (w : Waves.WaveForm) (e : Envelope.ADSR) (now : Instant)
    (vs : list Voice.Voice) (smp : R) (m : bool) :
  Forall (fun v => Forall (fun u => in_domain w (UnisonVoice.phase u)) (Voice.unisons v)) vs ->
  Rabs (snd (fst (Oscillator.voices_step w e now vs smp m)) - smp) <= voices_weight vs.
Proof.
  revert smp m. induction vs as [| v vs IH]; intros smp m H; simpl.
  - unfold Rminus. rewrite Rplus_opp_r, Rabs_R0. lra.
  - inversion H as [| ? ? Hv Hvs]; subst.
    pose proof (partial_weight_nonneg (Voice.unisons v)) as Hw0.
    set (vol := Rmin_f32 (Envelope.get_volume_incr e (Voice.volume v)
                  (triggered_time (Voice.note v)) (released (Voice.note v)) now) 1).
    assert (Hvol : vol <= 1) by (unfold vol, Rmin_f32; split_R_decs; lra).
    destruct (Rle_dec vol 0.01) as [Hm | Hm].
    + specialize (IH smp true Hvs).
      destruct (Oscillator.voices_step w e now vs smp true) as [[rest s'] m']. simpl in *. lra.
    + pose proof (unisons_step_bound w (Voice.unisons v) 0 Hv) as Hu.
      destruct (Oscillator.unisons_step w (Voice.unisons v) 0) as [us' x]. simpl in Hu.
      rewrite Rminus_0_r in Hu.
      specialize (IH (smp + x * vol) m Hvs).
      destruct (Oscillator.voices_step w e now vs _ m) as [[rest s'] m']. simpl in *.
      assert (Hx : Rabs (x * vol) <= partial_weight (Voice.unisons v)).
      { rewrite Rabs_mult. rewrite (Rabs_right vol) by lra.
        pose proof (Rabs_pos x). nra. }
      replace (s' - smp) with ((s' - (smp + x * vol)) + x * vol) by ring.
      eapply Rle_trans; [apply Rabs_triang |]. lra.
Qed.

(** With every phase in the wave's domain, the magnitude of an
    oscillator's sample is at most its volume times the summed magnitudes
    of its voices' partial volumes. *)
Theorem get_sample_bounded (o : Oscillator.Oscillator) (e : Envelope.ADSR) (now : Instant) :
  Forall (fun v => Forall (fun u => in_domain (Oscillator.wave o) (UnisonVoice.phase u))
                          (Voice.unisons v)) (Oscillator.voices o) ->
  Rabs (snd (Oscillator.get_sample o e now))
    <= Rabs (Oscillator.volume o) * voices_weight (Oscillator.voices o).
Proof.
  intros H. unfold Oscillator.get_sample.
  pose proof (voices_step_bound (Oscillator.wave o) e now (Oscillator.voices o) 0 false H) as Hb.
  destruct (Oscillator.voices_step _ _ _ _ _ _) as [[vs smp] m]. simpl in *.
  rewrite Rminus_0_r in Hb. rewrite Rabs_mult, Rmult_comm.
  apply Rmult_le_compat_l; [apply Rabs_pos | exact Hb].
Qed.

(** ** Witnesses of the further properties *)

Lemma callback_spec_witness :
  Main.callback (Synth.new Synth.I16 44100) (fun _ => 0%nat) 600
  = Some (Synth.new Synth.I16 44100, Main.Complete, None).
Proof. apply (callback_spec (Synth.new Synth.I16 44100) (fun _ => 0%nat) 600). reflexivity. Defined.

Lemma silent_synth_next :
  let s := Synth.add_osc
             (Synth.add_env (Synth.new Synth.I16 44100)
                            (Envelope.new 44100 300%nat 300%nat 0.5 300%nat))
             (Oscillator.new 44100 Waves.Sine 0 1) in
  Synth.next s 0%nat = Some (s, Synth.SInt 0).
Proof.
  cbv zeta. unfold Synth.next. simpl.
  unfold Oscillator.get_sample. simpl.
  unfold Synth.from_f32. simpl. rewrite Rmult_0_l, Rplus_0_l, Rmult_0_l.
  split_R_decs; try lra. rewrite trunc_0. reflexivity.
Qed.

Lemma next_changes_only_voices_witness :
  let s := Synth.add_osc
             (Synth.add_env (Synth.new Synth.I16 44100)
                            (Envelope.new 44100 300%nat 300%nat 0.5 300%nat))
             (Oscillator.new 44100 Waves.Sine 0 1) in
  Forall2 (fun o o' => Oscillator.set_voices o (Oscillator.voices o') = o')
          (Synth.oscillators s) (Synth.oscillators s) /\
  Synth.envelopes s = Synth.envelopes s /\ Synth.volume s = Synth.volume s /\
  Synth.sample_rate s = Synth.sample_rate s /\ Synth.sample_type s = Synth.sample_type s.
Proof. intros s. exact (next_changes_only_voices s s 0%nat (Synth.SInt 0) silent_synth_next). Defined.

Lemma next_missing_envelope_panics_witness :
  Synth.next (Synth.add_osc (Synth.new Synth.I16 44100) (Oscillator.new 44100 Waves.Sine 0 1))
             0%nat = None.
Proof. apply next_missing_envelope_panics. apply Exists_cons_hd. simpl. lia. Defined.

Lemma next_silent_witness :
  let s := Synth.add_osc
             (Synth.add_env (Synth.new Synth.I16 44100)
                            (Envelope.new 44100 300%nat 300%nat 0.5 300%nat))
             (Oscillator.new 44100 Waves.Sine 0 1) in
  Synth.next s 0%nat = Some (s, Synth.SInt 0).
Proof.
  intros s. apply (next_silent s 0%nat).
  - reflexivity.
  - apply Forall_cons; [cbn; lia | apply Forall_nil].
Defined.


Lemma note_on_starts_playing_witness :
  Synth.playing (fst (Synth.note_on (Synth.add_osc
             (Synth.add_env (Synth.new Synth.I16 44100)
                            (Envelope.new 44100 300%nat 300%nat 0.5 300%nat))
             (Oscillator.new 44100 Waves.Sine 0 1)) 440 0%nat 0%nat (fun _ => 0))) = true.
Proof. apply note_on_starts_playing. simpl. discriminate. Defined.

Definition one_voice_osc : Oscillator.Oscillator :=
  Oscillator.set_voices (Oscillator.new 44100 Waves.Sine 0 1)
    [Voice.mk (Note_new 440 0%nat 0%nat) 0 [UnisonVoice.mk 0 (440 / 44100) 1]].

Lemma one_voice_osc_ok : partials_ok (Oscillator.wave one_voice_osc) (Oscillator.voices one_voice_osc).
Proof.
  unfold partials_ok, one_voice_osc, in_domain. simpl. pose proof PI_RGT_0.
  repeat constructor; unfold Waves.TWO_PI; simpl; lra.
Qed.

Lemma get_sample_keeps_phases_witness :
  partials_ok (Oscillator.wave (fst (Oscillator.get_sample one_voice_osc
                 (Envelope.new 44100 300%nat 300%nat 0.5 300%nat) 0%nat)))
              (Oscillator.voices (fst (Oscillator.get_sample one_voice_osc
                 (Envelope.new 44100 300%nat 300%nat 0.5 300%nat) 0%nat))).
Proof. apply get_sample_keeps_phases. exact one_voice_osc_ok. Defined.

Lemma create_voice_new_partials_witness :
  exists us,
    Oscillator.voices (fst (Oscillator.create_voice (Oscillator.new 44100 Waves.Sine 0 1)
                              (Note_new 440 0%nat 0%nat) (fun _ => 0)))
      = [Voice.mk (Note_new 440 0%nat 0%nat) 0 us] /\
    map UnisonVoice.volume us = [1] /\
    map UnisonVoice.phase_incr us = [440 / 44100 * 1 * 1] /\
    Forall (fun u => 0 <= UnisonVoice.phase u < Waves.period Waves.Sine) us.
Proof.
  apply (create_voice_new_partials (Oscillator.new 44100 Waves.Sine 0 1)
           (Note_new 440 0%nat 0%nat) (fun _ => 0)).
  - intros n. lra.
  - exact I.
  - reflexivity.
Defined.


Lemma transpose_by_compose_witness :
  Oscillator.transpose_by (Oscillator.transpose_by one_voice_osc 7) 12
  = Oscillator.transpose_by one_voice_osc 12.
Proof. apply transpose_by_compose. simpl. lra. Defined.

Lemma tune_by_keeps_partial_count_witness :
  length (Oscillator.unisons (fst (Oscillator.tune_by one_voice_osc 5 (fun _ => 0)))) = 1%nat /\
  Oscillator.tune (fst (Oscillator.tune_by one_voice_osc 5 (fun _ => 0)))
    = Rpower 2 (IZR 5 / (12 * 100)).
Proof. apply (tune_by_keeps_partial_count one_voice_osc 5 (fun _ => 0)). simpl. lia. Defined.

Lemma update_osc_spec_witness :
  exists s', Synth.set_osc_volume (Synth.add_osc
             (Synth.add_env (Synth.new Synth.I16 44100)
                            (Envelope.new 44100 300%nat 300%nat 0.5 300%nat))
             (Oscillator.new 44100 Waves.Sine 0 1)) 0 0.5 = Some s' /\
    length (Synth.oscillators s') = 1%nat /\
    (forall j, nth_error (Synth.oscillators s') j
       = if Nat.eqb j 0 then option_map (fun o => Oscillator.set_volume_field o 0.5)
                                        (nth_error (Synth.oscillators (Synth.add_osc
             (Synth.add_env (Synth.new Synth.I16 44100)
                            (Envelope.new 44100 300%nat 300%nat 0.5 300%nat))
             (Oscillator.new 44100 Waves.Sine 0 1))) j)
         else nth_error (Synth.oscillators (Synth.add_osc
             (Synth.add_env (Synth.new Synth.I16 44100)
                            (Envelope.new 44100 300%nat 300%nat 0.5 300%nat))
             (Oscillator.new 44100 Waves.Sine 0 1))) j) /\
    Synth.envelopes s' = Synth.envelopes (Synth.add_osc
             (Synth.add_env (Synth.new Synth.I16 44100)
                            (Envelope.new 44100 300%nat 300%nat 0.5 300%nat))
             (Oscillator.new 44100 Waves.Sine 0 1)) /\
    Synth.volume s' = Synth.volume (Synth.add_osc
             (Synth.add_env (Synth.new Synth.I16 44100)
                            (Envelope.new 44100 300%nat 300%nat 0.5 300%nat))
             (Oscillator.new 44100 Waves.Sine 0 1)) /\
    Synth.sample_type s' = Synth.sample_type (Synth.add_osc
             (Synth.add_env (Synth.new Synth.I16 44100)
                            (Envelope.new 44100 300%nat 300%nat 0.5 300%nat))
             (Oscillator.new 44100 Waves.Sine 0 1)).
Proof.
  apply (update_osc_spec (Synth.add_osc
             (Synth.add_env (Synth.new Synth.I16 44100)
                            (Envelope.new 44100 300%nat 300%nat 0.5 300%nat))
             (Oscillator.new 44100 Waves.Sine 0 1)) 0 (fun o => Oscillator.set_volume_field o 0.5)).
  simpl. lia.
Defined.

Lemma set_env_dangling_panics_witness :
  Synth.next (Synth.add_osc (Synth.new Synth.I16 44100)
                (Oscillator.set_env_idx_field (Oscillator.new 44100 Waves.Sine 0 1) 3))
             0%nat = None.
Proof.
  apply (set_env_dangling_panics
           (Synth.add_osc (Synth.new Synth.I16 44100) (Oscillator.new 44100 Waves.Sine 0 1))
           _ 0 3 0%nat).
  - simpl. lia.
  - reflexivity.
Defined.

Lemma set_env_parameter_spec_witness :
  exists s', Synth.set_env_parameter (Synth.add_osc
             (Synth.add_env (Synth.new Synth.I16 44100)
                            (Envelope.new 44100 300%nat 300%nat 0.5 300%nat))
             (Oscillator.new 44100 Waves.Sine 0 1)) 0 (Envelope.Release 0) = Some s' /\
    (forall j, nth_error (Synth.envelopes s') j
       = if Nat.eqb j 0
         then option_map (fun e => Envelope.set_parameter e (Envelope.Release 0))
                         (nth_error (Synth.envelopes (Synth.add_osc
             (Synth.add_env (Synth.new Synth.I16 44100)
                            (Envelope.new 44100 300%nat 300%nat 0.5 300%nat))
             (Oscillator.new 44100 Waves.Sine 0 1))) j)
         else nth_error (Synth.envelopes (Synth.add_osc
             (Synth.add_env (Synth.new Synth.I16 44100)
                            (Envelope.new 44100 300%nat 300%nat 0.5 300%nat))
             (Oscillator.new 44100 Waves.Sine 0 1))) j) /\
    Synth.oscillators s' = Synth.oscillators (Synth.add_osc
             (Synth.add_env (Synth.new Synth.I16 44100)
                            (Envelope.new 44100 300%nat 300%nat 0.5 300%nat))
             (Oscillator.new 44100 Waves.Sine 0 1)) /\
    (Forall Envelope.reachable (Synth.envelopes (Synth.add_osc
             (Synth.add_env (Synth.new Synth.I16 44100)
                            (Envelope.new 44100 300%nat 300%nat 0.5 300%nat))
             (Oscillator.new 44100 Waves.Sine 0 1))) ->
     Forall Envelope.reachable (Synth.envelopes s')).
Proof.
  apply (set_env_parameter_spec (Synth.add_osc
             (Synth.add_env (Synth.new Synth.I16 44100)
                            (Envelope.new 44100 300%nat 300%nat 0.5 300%nat))
             (Oscillator.new 44100 Waves.Sine 0 1)) 0 (Envelope.Release 0)). simpl. lia.
Defined.

Lemma wave_func_bounded_witness :
  -1 <= Waves.wave_func Waves.Triangle 1 <= 1.
Proof. apply wave_func_bounded. simpl. lra. Defined.


Lemma get_sample_bounded_witness :
  Rabs (snd (Oscillator.get_sample one_voice_osc
               (Envelope.new 44100 300%nat 300%nat 0.5 300%nat) 0%nat))
    <= Rabs (Oscillator.volume one_voice_osc) * voices_weight (Oscillator.voices one_voice_osc).
Proof.
  apply get_sample_bounded. eapply Forall_impl; [| exact one_voice_osc_ok].
  intros v Hv. eapply Forall_impl; [| exact Hv]. intros u [Hu _]. exact Hu.
Defined.
